(** * Stack-frame structure recovery (pass_locals.cpp): a shallow embedding

    The development follows the [IdentifyLocals] function pass of fcd:
    - the slice of the LLVM SSA representation the pass inspects
      (values, instructions, use lists);
    - [std::map<int64_t, Instruction*>] as a key-ordered association list
      with the non-overwriting [insert] of the C++ container;
    - [StackObject], [StackObject::print], [simplifyTrivialStructures],
      [IdentifyLocals::analyzeObject], [IdentifyLocals::readObject] and
      [IdentifyLocals::runOnFunction];
    - the properties of the frame report;
    - the executable front end that shares the source file: the
      case-insensitive character traits, the [--format] option parser, the
      autodetecting factory and the symbol and stub caches of [Executable],
      with their properties. *)

From Stdlib Require Import List ZArith NArith Bool Arith Lia String Ascii.
From Stdlib Require Import DecimalString Sorted.
Import ListNotations.

Local Open Scope string_scope.
Local Open Scope list_scope.
Local Open Scope Z_scope.

(** ** Outcomes of a run

    A failed [assert] aborts the process, unless the program was built with
    [NDEBUG]; a signed overflow or a read through a pointer or an iterator
    that names no object has no defined result.  The recursive builder is
    given a recursion budget; exhausting it is an outcome of its own, never
    a result. *)

Inductive Failure : Type :=
| AssertionFailure
| UndefinedBehaviour
| OutOfFuel.

Inductive result (A : Type) : Type :=
| Ok (a : A)
| Abort (e : Failure).

Arguments Ok {A} a.
Arguments Abort {A} e.

Definition bind {A B : Type} (m : result A) (k : A -> result B) : result B :=
  match m with
  | Ok a => k a
  | Abort e => Abort e
  end.

Notation "x <- m ;; k" := (bind m (fun x => k))
  (at level 61, m at next level, right associativity).

(** [assert(c)]; with [NDEBUG] defined the macro expands to nothing. *)
Definition assert (NDEBUG : bool) (c : bool) : result unit :=
  if c then Ok tt
  else if NDEBUG then Ok tt
  else Abort AssertionFailure.

(** ** The SSA representation, as far as the pass looks at it *)

Module IR.

(** [llvm::Type*]: types are uniqued, so a type is identified with the text
    [Type::print] writes for it. *)
Definition Ty : Type := string.

Inductive Value : Type :=
| ConstantInt (value : N)      (* the zero-extended bits of the constant *)
| Argument (index : nat)
| InstValue (id : nat)         (* the result of instruction number [id] *)
| GlobalValue (name : string).

Inductive BinaryOps : Type :=
| Add | Sub | Mul | UDiv | SDiv | URem | SRem
| Shl | LShr | AShr | And | Or | Xor.

Inductive CastOps : Type :=
| Trunc | ZExt | SExt | PtrToInt | IntToPtr | BitCast.

Inductive Instruction : Type :=
| BinaryOperator (opcode : BinaryOps) (op0 op1 : Value)
| CastInst (opcode : CastOps) (op : Value)
| LoadInst (ty : Ty) (ptr : Value)
| StoreInst (valueTy : Ty) (value ptr : Value)
| ICmpInst (op0 op1 : Value)
| OtherInst (ops : list Value).    (* call, phi, select, getelementptr, ... *)

(** A function body: instruction [id] is the [id]-th element.  Use lists
    are enumerated in the order of this list. *)
Definition Function : Type := list Instruction.

Definition Value_eqb (a b : Value) : bool :=
  match a, b with
  | ConstantInt x, ConstantInt y => N.eqb x y
  | Argument i, Argument j => Nat.eqb i j
  | InstValue i, InstValue j => Nat.eqb i j
  | GlobalValue s, GlobalValue t => String.eqb s t
  | _, _ => false
  end.

Definition isAdd (o : BinaryOps) : bool :=
  match o with Add => true | _ => false end.

Definition isIntToPtr (o : CastOps) : bool :=
  match o with IntToPtr => true | _ => false end.

Definition operands (i : Instruction) : list Value :=
  match i with
  | BinaryOperator _ a b => [a; b]
  | CastInst _ a => [a]
  | LoadInst _ p => [p]
  | StoreInst _ v p => [v; p]
  | ICmpInst a b => [a; b]
  | OtherInst ops => ops
  end.

(** One entry of a use list: the using instruction and its number. *)
Definition User : Type := (nat * Instruction)%type.

Definition usesOf (v : Value) (u : User) : list User :=
  repeat u (List.length (filter (Value_eqb v) (operands (snd u)))).

Fixpoint enumerate (n : nat) (fn : Function) : list User :=
  match fn with
  | [] => []
  | i :: rest => (n, i) :: enumerate (S n) rest
  end.

(** [Value::users()]: one entry per operand slot that holds [v]. *)
Definition users (fn : Function) (v : Value) : list User :=
  flat_map (usesOf v) (enumerate 0 fn).

(** [ConstantInt::getLimitedValue()] with its default limit. *)
Definition getLimitedValue (c : N) : N := N.min c (2 ^ 64 - 1).

(** The conversion of a [uint64_t] to the [int64_t] key of the map. *)
Definition to_int64 (u : N) : Z :=
  let z := (Z.of_N u) mod 2 ^ 64 in
  if z <? 2 ^ 63 then z else z - 2 ^ 64.

Definition INT64_MAX : Z := 2 ^ 63 - 1.
Definition INT64_MIN : Z := - 2 ^ 63.

(** [a - b] on [int64_t]; an overflow is undefined. *)
Definition sub_int64 (a b : Z) : result Z :=
  let d := a - b in
  if (INT64_MIN <=? d) && (d <=? INT64_MAX) then Ok d
  else Abort UndefinedBehaviour.

End IR.

Import IR.

(** ** [std::map<int64_t, V>] *)

Module StdMap.

Section WithValue.
Context {V : Type}.

(** Entries in ascending key order, as the container iterates them. *)
Definition t : Type := list (Z * V).

(** [std::map::insert]: an existing key keeps its entry. *)
Fixpoint insert (k : Z) (v : V) (m : t) : t :=
  match m with
  | [] => [(k, v)]
  | (k', v') :: rest =>
      if k <? k' then (k, v) :: m
      else if k =? k' then m
      else (k', v') :: insert k v rest
  end.

Fixpoint find (k : Z) (m : t) : option V :=
  match m with
  | [] => None
  | (k', v') :: rest => if k =? k' then Some v' else find k rest
  end.

Definition size (m : t) : nat := List.length m.

(** [begin()->first] and [rbegin()->first]. *)
Definition front (m : t) : option Z := option_map fst (hd_error m).
Definition back (m : t) : option Z := option_map fst (hd_error (rev m)).

Definition keys (m : t) : list Z := map fst m.

(** The order invariant of the container. *)
Definition sorted (m : t) : Prop := StronglySorted Z.lt (keys m).

End WithValue.

Arguments t V : clear implicits.

End StdMap.

#[local] Set Warnings "-register-all".

(** ** The type tree *)

(** [StackObject].  [objectPointer] is the number of the cast instruction;
    [structNextField] may be null.  The field type of a struct node and the
    element type of an array node are dereferenced unconditionally by the
    code and are never null in a tree. *)
Inductive StackObject : Type :=
| Object (objectPointer : nat)
| Array (arrayElementType : StackObject) (arrayMinKnownCount : N)
| StructField (offsetFromParent : Z) (structFieldType : StackObject)
              (structNextField : option StackObject).

Definition getLoadStoreType (inst : Instruction) : option Ty :=
  match inst with
  | LoadInst ty _ => Some ty
  | StoreInst valueTy _ _ => Some valueTy
  | _ => None
  end.

(** [SmallPtrSet<Type*, 1>::insert]; the elements are kept in insertion
    order. *)
Fixpoint set_insert (ty : Ty) (types : list Ty) : list Ty :=
  match types with
  | [] => [ty]
  | t0 :: rest => if String.eqb ty t0 then types else t0 :: set_insert ty rest
  end.

Fixpoint collectTypes (us : list User) (types : list Ty) : list Ty :=
  match us with
  | [] => types
  | u :: rest =>
      match getLoadStoreType (snd u) with
      | Some ty => collectTypes rest (set_insert ty types)
      | None => collectTypes rest types
      end
  end.

Definition getPointerCastTypes (fn : Function) (inst : nat) (types : list Ty)
  : list Ty :=
  collectTypes (users fn (InstValue inst)) types.

Definition string_of_Z (z : Z) : string := NilZero.string_of_int (Z.to_int z).
Definition string_of_N (n : N) : string := NilZero.string_of_uint (N.to_uint n).

Fixpoint printTypes (types : list Ty) : string :=
  match types with
  | [] => EmptyString
  | ty :: rest => (", " ++ ty ++ printTypes rest)%string
  end.

(** [StackObject::print].  [printFields] is the loop over [structNextField];
    it reads the struct members of every node it reaches. *)
Fixpoint print (NDEBUG : bool) (fn : Function) (obj : StackObject)
  : result string :=
  match obj with
  | Object objectPointer =>
      let types := getPointerCastTypes fn objectPointer [] in
      _ <- assert NDEBUG (0 <? List.length types)%nat ;;
      match types with
      | [] => Abort UndefinedBehaviour
      | ty :: rest => Ok ("(" ++ ty ++ printTypes rest ++ ")")%string
      end
  | Array elem count =>
      s <- print NDEBUG fn elem ;;
      Ok ("[" ++ string_of_N count ++ " x " ++ s ++ "]")%string
  | StructField off ty next =>
      s <- print NDEBUG fn ty ;;
      r <- match next with
           | None => Ok EmptyString
           | Some item => printFields NDEBUG fn item
           end ;;
      Ok ("{" ++ string_of_Z off ++ ": " ++ s ++ r ++ "}")%string
  end
with printFields (NDEBUG : bool) (fn : Function) (item : StackObject)
  : result string :=
  match item with
  | StructField off ty next =>
      s <- print NDEBUG fn ty ;;
      r <- match next with
           | None => Ok EmptyString
           | Some item' => printFields NDEBUG fn item'
           end ;;
      Ok (", " ++ string_of_Z off ++ ": " ++ s ++ r)%string
  | _ => Abort UndefinedBehaviour
  end.

(** [simplifyTrivialStructures] on a non-null node; the tree is updated in
    place and has no sharing, so the update is the rebuilt node. *)
Fixpoint simplifyTrivialStructures (obj : StackObject) : StackObject :=
  match obj with
  | StructField off child next =>
      let fieldType :=
        match child with
        | StructField 0 grandchild None => simplifyTrivialStructures grandchild
        | _ => child
        end in
      StructField off fieldType
        match next with
        | None => None
        | Some n => Some (simplifyTrivialStructures n)
        end
  | Array elem count => Array (simplifyTrivialStructures elem) count
  | Object c => Object c
  end.

(** The entry point on a possibly null pointer. *)
Definition simplifyTrivialStructures_ptr (obj : option StackObject)
  : option StackObject :=
  match obj with
  | None => None
  | Some o => Some (simplifyTrivialStructures o)
  end.

(** ** The frame type builder *)

(** The out-parameters of [analyzeObject]. *)
Record Analysis : Type := mkAnalysis {
  castedAs : option nat;                          (* CastInst* *)
  constantOffsets : StdMap.t (option nat);        (* Instruction* values *)
  variableOffsetStrides : StdMap.t (option nat)
}.

Definition emptyAnalysis : Analysis := mkAnalysis None [] [].

Definition recordOffset (k : Z) (inst : nat) (st : Analysis) : Analysis :=
  mkAnalysis (castedAs st)
             (StdMap.insert k (Some inst) (constantOffsets st))
             (variableOffsetStrides st).

Definition recordCast (inst : nat) (st : Analysis) : Analysis :=
  mkAnalysis (Some inst) (constantOffsets st) (variableOffsetStrides st).

(** The operand of [binOp] the code takes for the offset. *)
Definition rightOperand (base op0 op1 : Value) : Value :=
  if Value_eqb op0 base then op1 else op0.

(** The loop of [analyzeObject] over [base.users()]; [false] is the early
    [return false]. *)
Fixpoint analyzeUsers (base : Value) (us : list User) (st : Analysis)
  : bool * Analysis :=
  match us with
  | [] => (true, st)
  | (id, BinaryOperator opcode op0 op1) :: rest =>
      if negb (isAdd opcode) then (false, st)
      else
        match rightOperand base op0 op1 with
        | ConstantInt c =>
            analyzeUsers base rest
              (recordOffset (to_int64 (getLimitedValue c)) id st)
        | _ => (false, st)
        end
  | (id, CastInst opcode _) :: rest =>
      if isIntToPtr opcode then analyzeUsers base rest (recordCast id st)
      else analyzeUsers base rest st
  | _ :: rest => analyzeUsers base rest st
  end.

Definition analyzeObject (fn : Function) (base : Value) (st : Analysis)
  : bool * Analysis :=
  analyzeUsers base (users fn base) st.

(** [signbit] of an integer. *)
Definition signbit (z : Z) : bool := z <? 0.

Definition offsetsAssertion (front back : Z) : bool :=
  (front =? 0) || (back =? 0) || Bool.eqb (signbit front) (signbit back).

(** [if (offset0 != nullptr) constantOffsets.insert({0, nullptr});] *)
Definition withOffset0 (offset0 : option StackObject)
           (offsets : StdMap.t (option nat)) : StdMap.t (option nat) :=
  match offset0 with
  | Some _ => StdMap.insert 0 None offsets
  | None => offsets
  end.

Section ReadObject.

Variable NDEBUG : bool.
Variable fn : Function.

(** The recursive call, one level down. *)
Variable readBase : Value -> result (option StackObject).

(** [pair.second == nullptr ? offset0 : readObject(pool, *pair.second)] *)
Definition readChild (offset0 : option StackObject) (second : option nat)
  : result (option StackObject) :=
  match second with
  | None => Ok offset0
  | Some inst => readBase (InstValue inst)
  end.

(** The loop over the map; the result is the chain from the first item
    created in the remaining entries ([firstItem] for the whole map). *)
Fixpoint readFields (front : Z) (offset0 : option StackObject)
         (pairs : StdMap.t (option nat)) : result (option StackObject) :=
  match pairs with
  | [] => Ok None
  | (first, second) :: rest =>
      child <- readChild offset0 second ;;
      match child with
      | Some c =>
          off <- sub_int64 first front ;;
          next <- readFields front offset0 rest ;;
          Ok (Some (StructField off c next))
      | None => readFields front offset0 rest
      end
  end.

(** The code of [readObject] from the test of [constantOffsets.size()] on. *)
Definition readStruct (offset0 : option StackObject)
           (offsets : StdMap.t (option nat)) : result (option StackObject) :=
  match StdMap.front offsets, StdMap.back offsets with
  | Some front, Some back =>
      _ <- assert NDEBUG (offsetsAssertion front back) ;;
      readFields front offset0 offsets
  | _, _ => Ok offset0
  end.

Definition readObjectBody (base : Value) : result (option StackObject) :=
  let '(ok, st) := analyzeObject fn base emptyAnalysis in
  if negb ok then Ok None
  else
    let offset0 := option_map Object (castedAs st) in
    if (0 <? StdMap.size (variableOffsetStrides st))%nat then Ok None
    else readStruct offset0 (withOffset0 offset0 (constantOffsets st)).

End ReadObject.

(** [IdentifyLocals::readObject]; [fuel] bounds the depth of the recursion. *)
Fixpoint readObject (NDEBUG : bool) (fuel : nat) (fn : Function) (base : Value)
  : result (option StackObject) :=
  match fuel with
  | O => Abort OutOfFuel
  | S fuel' => readObjectBody NDEBUG fn (readObject NDEBUG fuel' fn) base
  end.

(** The line feed that ends a report. *)
Definition endl : string := String (ascii_of_nat 10) EmptyString.

(** [IdentifyLocals::runOnFunction]: the text written to the error stream.
    [stackPointer] is the answer of [md::getStackPointerArgument]. *)
Definition runOnFunction (NDEBUG : bool) (fuel : nat) (name : string)
           (fn : Function) (stackPointer : option nat) : result string :=
  match stackPointer with
  | None => Ok EmptyString
  | Some index =>
      root <- readObject NDEBUG fuel fn (Argument index) ;;
      match root with
      | Some r =>
          s <- print NDEBUG fn (simplifyTrivialStructures r) ;;
          Ok (name ++ ": " ++ s ++ endl)%string
      | None => Ok (name ++ ": " ++ endl)%string
      end
  end.

(** ** Vocabulary of the statements *)

(** The uses the loop of [analyzeObject] does not skip: binary operators and
    int-to-pointer casts. *)
Definition inspected (u : User) : bool :=
  match snd u with
  | BinaryOperator _ _ _ => true
  | CastInst opcode _ => isIntToPtr opcode
  | _ => false
  end.

(** The key an additive use with a constant operand is recorded under. *)
Definition offsetKey (base : Value) (u : User) : option Z :=
  match snd u with
  | BinaryOperator Add op0 op1 =>
      match rightOperand base op0 op1 with
      | ConstantInt c => Some (to_int64 (getLimitedValue c))
      | _ => None
      end
  | _ => None
  end.

(** The first use, in visiting order, recorded under key [k]. *)
Fixpoint firstOffsetUse (base : Value) (k : Z) (us : list User) : option nat :=
  match us with
  | [] => None
  | u :: rest =>
      match offsetKey base u with
      | Some k' => if k =? k' then Some (fst u) else firstOffsetUse base k rest
      | None => firstOffsetUse base k rest
      end
  end.

(** The chain of struct nodes with the given fields. *)
Fixpoint mkStruct (fields : list (Z * StackObject)) : option StackObject :=
  match fields with
  | [] => None
  | (off, ty) :: rest => Some (StructField off ty (mkStruct rest))
  end.

(** The fields the loop of [readObject] creates: one per entry whose child
    was recovered, at the entry's offset from [front]. *)
Definition survivors
           (readBase : Value -> result (option StackObject))
           (front : Z) (offset0 : option StackObject)
           (offsets : StdMap.t (option nat)) : list (Z * StackObject) :=
  flat_map (fun p : Z * option nat =>
              match readChild readBase offset0 (snd p) with
              | Ok (Some c) => [(fst p - front, c)]
              | _ => []
              end) offsets.

(** What holds of a node [readObject NDEBUG (S fuel) fn base] returns: the
    uses of [base] were classified; [front] is the least key of the offset
    map; the node is the chain of the surviving fields, which are in strictly
    ascending order of offset and at non-negative offsets; and an entry whose
    child is not recovered could as well be missing from the map. *)
Definition structFieldsInvariant (NDEBUG : bool) (fuel : nat) (fn : Function)
           (base : Value) (node : StackObject) : Prop :=
  exists st front,
    analyzeObject fn base emptyAnalysis = (true, st)
    /\ let offset0 := option_map Object (castedAs st) in
       let offsets := withOffset0 offset0 (constantOffsets st) in
       let fields :=
         survivors (readObject NDEBUG fuel fn) front offset0 offsets in
       StdMap.front offsets = Some front
       /\ Forall (fun k => front <= k) (StdMap.keys offsets)
       /\ Some node = mkStruct fields
       /\ StronglySorted Z.lt (map fst fields)
       /\ Forall (fun f => 0 <= fst f) fields
       /\ forall p1 k v p2,
            offsets = p1 ++ (k, v) :: p2 ->
            readChild (readObject NDEBUG fuel fn) offset0 v = Ok None ->
            readFields (readObject NDEBUG fuel fn) front offset0 (p1 ++ p2)
            = Ok (Some node).

(** [rb2] answers as [rb1] wherever [rb1] did not run out of budget. *)
Definition extends (rb1 rb2 : Value -> result (option StackObject)) : Prop :=
  forall v x, rb1 v = x -> x <> Abort OutOfFuel -> rb2 v = x.

(** Every instruction uses only results of earlier instructions. *)
Definition defBeforeUse (fn : Function) : Prop :=
  forall i inst j,
    nth_error fn i = Some inst ->
    In (InstValue j) (operands inst) -> (j < i)%nat.

(** A depth the recursion from [base] cannot reach in such a function. *)
Definition fuelBound (fn : Function) (base : Value) : nat :=
  match base with
  | InstValue i => List.length fn - i
  | _ => S (List.length fn)
  end.

(** A struct node with one field, at offset 0 and with no sibling. *)
Definition trivialStruct (obj : StackObject) : bool :=
  match obj with
  | StructField 0 _ None => true
  | _ => false
  end.

(** No field on the path of the normalizer is a one-field wrapper around a
    one-field wrapper. *)
Fixpoint stable (obj : StackObject) : bool :=
  match obj with
  | Object _ => true
  | Array elem _ => stable elem
  | StructField _ child next =>
      match child with
      | StructField 0 grandchild None => negb (trivialStruct grandchild)
      | _ => true
      end
      && match next with
         | None => true
         | Some n => stable n
         end
  end.

(** Instruction [i] replaced by [inst]. *)
Fixpoint replaceInst (i : nat) (inst : Instruction) (fn : Function)
  : Function :=
  match fn, i with
  | [], _ => []
  | _ :: rest, O => inst :: rest
  | x :: rest, S i' => x :: replaceInst i' inst rest
  end.

(** ** Induction on type trees *)

Section StackObjectInduction.

Variable P : StackObject -> Prop.
Hypothesis P_Object : forall c, P (Object c).
Hypothesis P_Array : forall elem count, P elem -> P (Array elem count).
Hypothesis P_StructField :
  forall off ty next,
    P ty -> (forall n, next = Some n -> P n) -> P (StructField off ty next).

Fixpoint StackObject_induction (obj : StackObject) : P obj :=
  match obj with
  | Object c => P_Object c
  | Array elem count => P_Array elem count (StackObject_induction elem)
  | StructField off ty next =>
      P_StructField off ty next (StackObject_induction ty)
        (match next as o return forall n, o = Some n -> P n with
         | None => fun n H => match H with eq_refl => I end
         | Some n0 =>
             fun n H =>
               match H in _ = o
                     return match o with Some m => P m | None => True end
               with eq_refl => StackObject_induction n0 end
         end)
  end.

End StackObjectInduction.

(** The number of nodes of a tree. *)
Fixpoint nodes (obj : StackObject) : nat :=
  match obj with
  | Object _ => 1
  | Array elem _ => S (nodes elem)
  | StructField _ ty next =>
      S (nodes ty + match next with None => 0 | Some n => nodes n end)
  end.

(** What the builder relies on after [analyzeObject]. *)
Record analysisInv (st : Analysis) : Prop := {
  inv_sorted : StdMap.sorted (constantOffsets st);
  inv_values : Forall (fun p => snd p <> None) (constantOffsets st);
  inv_range :
    Forall (fun k => INT64_MIN <= k <= INT64_MAX)
           (StdMap.keys (constantOffsets st));
  inv_strides : variableOffsetStrides st = []
}.

(** ** Sample functions *)

(** [sp + 8], [sp + r1], and a direct cast of [sp] that is loaded from. *)
Definition variableOffsetFn : Function :=
  [ BinaryOperator Add (Argument 0) (ConstantInt 8);
    BinaryOperator Add (Argument 0) (Argument 1);
    CastInst IntToPtr (Argument 0);
    LoadInst "int32" (InstValue 2) ].

(** The stack pointer is cast to a pointer that is loaded from once. *)
Definition singleCastFn : Function :=
  [ CastInst IntToPtr (Argument 0);
    LoadInst "int8" (InstValue 0) ].

(** [sp + 0] and [sp + 4], each cast to a pointer and loaded from. *)
Definition twoFieldsFn : Function :=
  [ BinaryOperator Add (Argument 0) (ConstantInt 0);
    BinaryOperator Add (Argument 0) (ConstantInt 4);
    CastInst IntToPtr (InstValue 0);
    CastInst IntToPtr (InstValue 1);
    LoadInst "int32" (InstValue 2);
    LoadInst "int32" (InstValue 3) ].

(** [(sp + 8) + 4] cast to a pointer and loaded from. *)
Definition nestedOffsetFn : Function :=
  [ BinaryOperator Add (Argument 0) (ConstantInt 8);
    BinaryOperator Add (InstValue 0) (ConstantInt 4);
    CastInst IntToPtr (InstValue 1);
    LoadInst "int32" (InstValue 2) ].

(** Two additions of the same constant to [sp], used at different types. *)
Definition duplicateOffsetFn : Function :=
  [ BinaryOperator Add (Argument 0) (ConstantInt 4);
    BinaryOperator Add (Argument 0) (ConstantInt 4);
    CastInst IntToPtr (InstValue 0);
    LoadInst "int32" (InstValue 2);
    CastInst IntToPtr (InstValue 1);
    LoadInst "int64" (InstValue 4) ].

(** A loaded cast of [sp], and [sp] compared with a constant. *)
Definition comparisonFn : Function :=
  [ CastInst IntToPtr (Argument 0);
    LoadInst "int8" (InstValue 0);
    ICmpInst (Argument 0) (ConstantInt 0) ].

(** A loaded cast of [sp], and a constant subtracted from [sp]. *)
Definition subtractionFn : Function :=
  [ CastInst IntToPtr (Argument 0);
    LoadInst "int8" (InstValue 0);
    BinaryOperator Sub (Argument 0) (ConstantInt 8) ].

(** A cast of [sp] whose only user is a call. *)
Definition passedPointerFn : Function :=
  [ CastInst IntToPtr (Argument 0);
    OtherInst [InstValue 0] ].

(** [sp + 0] is only multiplied; [sp + 4] and [sp + 8] are accessed. *)
Definition lostFieldFn : Function :=
  [ BinaryOperator Add (Argument 0) (ConstantInt 0);
    BinaryOperator Add (Argument 0) (ConstantInt 4);
    BinaryOperator Add (Argument 0) (ConstantInt 8);
    BinaryOperator Mul (InstValue 0) (ConstantInt 2);
    CastInst IntToPtr (InstValue 1);
    LoadInst "int32" (InstValue 4);
    CastInst IntToPtr (InstValue 2);
    StoreInst "int64" (ConstantInt 7) (InstValue 6) ].

(** [sp] is accessed through a cast and also through [sp + 0]. *)
Definition explicitZeroFn : Function :=
  [ CastInst IntToPtr (Argument 0);
    LoadInst "int64" (InstValue 0);
    BinaryOperator Add (Argument 0) (ConstantInt 0);
    CastInst IntToPtr (InstValue 2);
    LoadInst "int32" (InstValue 3) ].

(** Three one-field wrappers around a scalar. *)
Definition threeWrappers : StackObject :=
  StructField 0 (StructField 0 (StructField 0 (Object 2) None) None) None.

(** ** Measures and shapes of type trees *)

(** The cast instructions of the scalar nodes of a tree, left to right. *)
Fixpoint scalars (obj : StackObject) : list nat :=
  match obj with
  | Object c => [c]
  | Array elem _ => scalars elem
  | StructField _ ty next =>
      scalars ty ++ match next with
                    | None => []
                    | Some n => scalars n
                    end
  end.

(** The fields of a struct node: the node and its siblings, in chain order. *)
Fixpoint structFields (obj : StackObject) : list (Z * StackObject) :=
  match obj with
  | StructField off ty next =>
      (off, ty) :: match next with
                   | None => []
                   | Some n => structFields n
                   end
  | _ => []
  end.

(** No node of the tree is an array. *)
Fixpoint arrayFree (obj : StackObject) : bool :=
  match obj with
  | Object _ => true
  | Array _ _ => false
  | StructField _ ty next =>
      arrayFree ty && match next with
                      | None => true
                      | Some n => arrayFree n
                      end
  end.

(** The trees [print] can write: every scalar has a load or store type, and
    every sibling link leads to a struct node. *)
Fixpoint printable (fn : Function) (obj : StackObject) : bool :=
  match obj with
  | Object c =>
      match getPointerCastTypes fn c [] with
      | [] => false
      | _ :: _ => true
      end
  | Array elem _ => printable fn elem
  | StructField _ ty next =>
      printable fn ty && match next with
                         | None => true
                         | Some item => printableFields fn item
                         end
  end
with printableFields (fn : Function) (item : StackObject) : bool :=
  match item with
  | StructField _ ty next =>
      printable fn ty && match next with
                         | None => true
                         | Some item' => printableFields fn item'
                         end
  | _ => false
  end.





(** The stack pointer is only compared and passed to a call. *)
Definition onlyComparedFn : Function :=
  [ ICmpInst (Argument 0) (ConstantInt 0);
    OtherInst [Argument 0; InstValue 0] ].

(** * The executable front end (executable.cpp) *)

(** ** [ci_char_traits] *)

Module ci_char_traits.

(** A [char] as the [int] it is promoted to; [char_signed] tells whether
    plain [char] is a signed type on the platform. *)
Definition int_of_char (char_signed : bool) (c : ascii) : Z :=
  let n := Z.of_nat (nat_of_ascii c) in
  if char_signed && (128 <=? n) then n - 256 else n.

(** [toupper] in the "C" locale: only the letters a to z change (the
    negative values of a signed [char] are returned as they are, as the
    common C libraries do). *)
Definition toupper (x : Z) : Z :=
  if (97 <=? x) && (x <=? 122) then x - 32 else x.

Definition upper (char_signed : bool) (c : ascii) : Z :=
  toupper (int_of_char char_signed c).

Definition eq (char_signed : bool) (c1 c2 : ascii) : bool :=
  upper char_signed c1 =? upper char_signed c2.

Definition ne (char_signed : bool) (c1 c2 : ascii) : bool :=
  negb (upper char_signed c1 =? upper char_signed c2).

Definition lt (char_signed : bool) (c1 c2 : ascii) : bool :=
  upper char_signed c1 <? upper char_signed c2.

(** [compare(s1, s2, n)]: the lists hold the characters that can be read
    from the two pointers; a read past them is undefined. *)
Fixpoint compare (char_signed : bool) (s1 s2 : list ascii) (n : nat)
         {struct n} : result Z :=
  match n with
  | O => Ok 0
  | S n' =>
      match s1, s2 with
      | c1 :: r1, c2 :: r2 =>
          if upper char_signed c1 <? upper char_signed c2 then Ok (-1)
          else if upper char_signed c1 >? upper char_signed c2 then Ok 1
          else compare char_signed r1 r2 n'
      | _, _ => Abort UndefinedBehaviour
      end
  end.

(** The loop of [find], counting how far the pointer has moved. *)
Fixpoint find_loop (char_signed : bool) (s : list ascii) (n : nat) (a : ascii)
         {struct n} : result nat :=
  match n with
  | O => Ok O
  | S n' =>
      match s with
      | c :: r =>
          if eq char_signed c a then Ok O
          else i <- find_loop char_signed r n' a ;; Ok (S i)
      | [] => Abort UndefinedBehaviour
      end
  end.

(** [find(s, n, a)]: the distance of the returned pointer from [s]; [n] is
    an [int], and the loop runs while it is positive. *)
Definition find (char_signed : bool) (s : list ascii) (n : Z) (a : ascii)
  : result nat :=
  find_loop char_signed s (Z.to_nat n) a.

End ci_char_traits.

(** The upper-cased characters of a string, as [ci_char_traits] sees them. *)
Definition upperString (char_signed : bool) (s : list ascii) : list Z :=
  map (ci_char_traits.upper char_signed) s.

(** ** [AutoExecutableFactory] *)

Module AutoExecutableFactory.

(** [{0x7f, 'E', 'L', 'F'}] *)
Definition elf_magic : list N := [127; 69; 76; 70]%N.

(** [memcmp(a, b, n)] on bytes: the difference of the first pair of bytes
    that differ. *)
Fixpoint memcmp (a b : list N) (n : nat) {struct n} : result Z :=
  match n with
  | O => Ok 0
  | S n' =>
      match a, b with
      | x :: a', y :: b' =>
          if (x =? y)%N then memcmp a' b' n'
          else Ok (Z.of_N x - Z.of_N y)
      | _, _ => Abort UndefinedBehaviour
      end
  end.

Inductive ExecutableParsingError : Type :=
| Generic_UnknownFormat.

(** [parse(begin, end)] on the bytes from [begin] up to [end];
    [ElfExecutableFactory_parse] stands for [ElfExecutableFactory().parse],
    whose code is in another file. *)
Definition parse {Executable : Type}
           (ElfExecutableFactory_parse : list N -> Executable)
           (bytes : list N) : result (ExecutableParsingError + Executable) :=
  if (List.length elf_magic <=? List.length bytes)%nat then
    r <- memcmp bytes elf_magic (List.length elf_magic) ;;
    if r =? 0 then Ok (inr (ElfExecutableFactory_parse bytes))
    else Ok (inl Generic_UnknownFormat)
  else Ok (inl Generic_UnknownFormat).

End AutoExecutableFactory.

(** ** [ExecutableFactoryParser] *)

Module ExecutableFactoryParser.

Inductive ExecutableFactory : Type :=
| autoFactory
| elfFactory
| flatBinaryFactory
| pythonScriptExecutableFactory.

(** [OptionInfo]: [Name] is the factory's [getParameterValue()]. *)
Record OptionInfo : Type := mkOptionInfo {
  Name : string;
  HelpStr : string;
  factory : ExecutableFactory
}.

(** [factories()]; the two accessors belong to the factories' base class,
    declared in executable.h. *)
Definition factories (getParameterValue getHelp : ExecutableFactory -> string)
  : list OptionInfo :=
  map (fun f => mkOptionInfo (getParameterValue f) (getHelp f) f)
      [autoFactory; elfFactory; flatBinaryFactory;
       pythonScriptExecutableFactory].

(** [ci_string == const char*]: the common prefix compares equal under the
    traits and the lengths agree. *)
Definition ci_equal (char_signed : bool) (data s : list ascii) : result bool :=
  r <- ci_char_traits.compare char_signed data s
         (Nat.min (List.length data) (List.length s)) ;;
  Ok ((r =? 0) && (List.length data =? List.length s)%nat).

(** The outcome of [parse]: a factory stored in [value] ([parse] returns
    [false]), with the script path when [setScriptPath] was called; or the
    error reported through [o.error] ([parse] returns [true]). *)
Inductive Outcome : Type :=
| Selected (value : ExecutableFactory) (scriptPath : option string)
| OptionError (message : string).

(** The loop over [factories()]. *)
Fixpoint lookup (char_signed : bool) (ciArgVal : list ascii)
         (infos : list OptionInfo) : result (option ExecutableFactory) :=
  match infos with
  | [] => Ok None
  | info :: rest =>
      e <- ci_equal char_signed ciArgVal (list_ascii_of_string (Name info)) ;;
      if e then Ok (Some (factory info))
      else lookup char_signed ciArgVal rest
  end.

Definition errorMessage (argVal : string) : string :=
  ("Cannot find option named '" ++ argVal ++ "'!")%string.

Definition parse (char_signed : bool) (infos : list OptionInfo)
           (hasArgStr : bool) (argName arg : string) : result Outcome :=
  let argVal := if hasArgStr then arg else argName in
  let ciArgVal := list_ascii_of_string argVal in
  found <- lookup char_signed ciArgVal infos ;;
  match found with
  | Some f => Ok (Selected f None)
  | None =>
      if (3 <? List.length ciArgVal)%nat then
        e <- ci_equal char_signed
               (firstn 3 (skipn (List.length ciArgVal - 3) ciArgVal))
               (list_ascii_of_string ".py") ;;
        if e then Ok (Selected pythonScriptExecutableFactory (Some argVal))
        else Ok (OptionError (errorMessage argVal))
      else Ok (OptionError (errorMessage argVal))
  end.

End ExecutableFactoryParser.

(** ** [Executable] *)

Module Executable.

(** The members of [SymbolInfo] and [StubInfo] this file assigns; the
    structures are declared in executable.h.  [memory] is a pointer that is
    not null, [sharedObject] points to an element of [libraries] or is
    null. *)
Record SymbolInfo : Type := mkSymbolInfo {
  virtualAddress : N;
  memory : nat
}.

Record StubInfo : Type := mkStubInfo {
  sharedObject : option string;
  name : string
}.

(** The answers of [doGetStubTarget]; [OtherResult] is any value the
    [switch] of [getStubTarget] does not name. *)
Inductive StubTargetQueryResult : Type :=
| Unresolved
| ResolvedInFlatNamespace
| ResolvedInTwoLevelNamespace
| OtherResult.

Section Maps.
Context {V : Type}.

(** [m.find(k)], [None] for [m.end()]. *)
Fixpoint lookup (k : N) (m : list (N * V)) : option V :=
  match m with
  | [] => None
  | (k', v) :: rest => if (k =? k')%N then Some v else lookup k rest
  end.

(** [m[k] = v]: the entry of [k] is made or replaced.  The order of
    iteration of the container is not modelled. *)
Fixpoint assign (k : N) (v : V) (m : list (N * V)) : list (N * V) :=
  match m with
  | [] => [(k, v)]
  | (k', v') :: rest =>
      if (k =? k')%N then (k, v) :: rest else (k', v') :: assign k v rest
  end.

End Maps.

(** [libraries.insert(name)]: a set of strings. *)
Fixpoint setInsert (x : string) (set : list string) : list string :=
  match set with
  | [] => [x]
  | y :: rest => if String.eqb x y then set else y :: setInsert x rest
  end.

Definition Symbols : Type := list (N * SymbolInfo).

(** The two members [getStubTarget] updates. *)
Record Stubs : Type := mkStubs {
  stubTargets : list (N * StubInfo);
  libraries : list string
}.

Definition getVisibleEntryPoints (symbols : Symbols) : list N :=
  map (fun pair => virtualAddress (snd pair)) symbols.

(** [getInfo(address)]; [map] is the virtual function of that name, [None]
    for a null pointer.  The result is the pointed-to [SymbolInfo] and the
    [symbols] member after the call. *)
Definition getInfo (map : N -> option nat) (symbols : Symbols) (address : N)
  : option SymbolInfo * Symbols :=
  match lookup address symbols with
  | Some info => (Some info, symbols)
  | None =>
      match map address with
      | Some memory =>
          let info := mkSymbolInfo address memory in
          (Some info, assign address info symbols)
      | None => (None, symbols)
      end
  end.

(** [getStubTarget(address)]; [doGetStubTarget] answers with the resolution
    and the two strings it writes. *)
Definition getStubTarget
           (doGetStubTarget : N -> StubTargetQueryResult * string * string)
           (st : Stubs) (address : N) : result (option StubInfo * Stubs) :=
  match lookup address (stubTargets st) with
  | Some stub => Ok (Some stub, st)
  | None =>
      let '(resolution, libraryName, targetName) := doGetStubTarget address in
      match resolution with
      | ResolvedInFlatNamespace =>
          let stub := mkStubInfo None targetName in
          Ok (Some stub,
              mkStubs (assign address stub (stubTargets st)) (libraries st))
      | ResolvedInTwoLevelNamespace =>
          let stub := mkStubInfo (Some libraryName) targetName in
          Ok (Some stub,
              mkStubs (assign address stub (stubTargets st))
                      (setInsert libraryName (libraries st)))
      | Unresolved => Ok (None, st)
      | OtherResult => Abort UndefinedBehaviour
      end
  end.

End Executable.

(** A table of options for the examples: ["auto"] and ["autodetect"] are the
    strings [AutoExecutableFactory] is constructed with; the strings of the
    three factories defined in other files are stand-ins. *)
Definition sampleFactories : list ExecutableFactoryParser.OptionInfo :=
  ExecutableFactoryParser.factories
    (fun f =>
       match f with
       | ExecutableFactoryParser.autoFactory => "auto"
       | ExecutableFactoryParser.elfFactory => "elf"
       | ExecutableFactoryParser.flatBinaryFactory => "flat"
       | ExecutableFactoryParser.pythonScriptExecutableFactory => "py"
       end%string)
    (fun f =>
       match f with
       | ExecutableFactoryParser.autoFactory => "autodetect"
       | _ => EmptyString
       end%string).

(** Symbols and a memory map for the examples: one known symbol, and a
    mapping of the addresses below 4096. *)
Definition sampleSymbols : Executable.Symbols :=
  [(4096%N, Executable.mkSymbolInfo 4096 64)].

Definition sampleMap (address : N) : option nat :=
  if (address <? 4096)%N then Some (N.to_nat address) else None.

(** Stub resolution for the examples: address 16 is in [libc], address 32 is
    in the flat namespace, nothing else resolves. *)
Definition sampleStubTarget (address : N)
  : Executable.StubTargetQueryResult * string * string :=
  if (address =? 16)%N
  then (Executable.ResolvedInTwoLevelNamespace, "libc", "puts")%string
  else if (address =? 32)%N
       then (Executable.ResolvedInFlatNamespace, EmptyString, "exit"%string)
       else (Executable.Unresolved, EmptyString, EmptyString).

(** The invariant of the stub cache: a shared-object pointer of a cached
    stub points into [libraries]. *)
Definition stubsWellFormed (st : Executable.Stubs) : Prop :=
  forall address stub library,
    Executable.lookup address (Executable.stubTargets st) = Some stub ->
    Executable.sharedObject stub = Some library ->
    In library (Executable.libraries st).

(** ** The normalizer *)

Lemma trivialStruct_true obj :
  trivialStruct obj = true ->
  exists grandchild, obj = StructField 0 grandchild None.
Proof.
  destruct obj as [c | e n | o g nx]; try discriminate.
  destruct o; try discriminate. destruct nx; try discriminate.
  intros _. now exists g.
Qed.

(** Splits on whether [t] is a one-field wrapper, naming its field type. *)
Ltac wrapper_cases t g H :=
  destruct (trivialStruct t) eqn:H;
  [ let E := fresh "E" in
    destruct (trivialStruct_true _ H) as [g E]; subst t | ].

Lemma simplify_struct_trivial off grandchild next :
  simplifyTrivialStructures
    (StructField off (StructField 0 grandchild None) next)
  = StructField off (simplifyTrivialStructures grandchild)
                (simplifyTrivialStructures_ptr next).
Proof. destruct next; reflexivity. Qed.

Lemma simplify_struct_other off child next :
  trivialStruct child = false ->
  simplifyTrivialStructures (StructField off child next)
  = StructField off child (simplifyTrivialStructures_ptr next).
Proof.
  intros H.
  destruct child as [c | e n | o g nx]; try (destruct next; reflexivity).
  destruct o; try (destruct next; reflexivity).
  destruct nx; [destruct next; reflexivity | discriminate H].
Qed.

(** The normalizer keeps the offset and the sibling link of a node, so it
    neither makes nor unmakes a one-field wrapper. *)
Lemma trivialStruct_simplify obj :
  trivialStruct (simplifyTrivialStructures obj) = trivialStruct obj.
Proof.
  destruct obj as [c | e n | o ty nx]; try reflexivity.
  wrapper_cases ty g Hty.
  - rewrite simplify_struct_trivial. destruct nx; reflexivity.
  - rewrite (simplify_struct_other _ _ _ Hty). destruct nx; reflexivity.
Qed.

Lemma simplify_stable obj :
  stable obj = true ->
  simplifyTrivialStructures (simplifyTrivialStructures obj)
  = simplifyTrivialStructures obj.
Proof.
  induction obj as [c | elem count IH | off ty next _ IHnext]
    using StackObject_induction; intros Hst.
  - reflexivity.
  - simpl in *. now rewrite IH.
  - assert (Hnext : simplifyTrivialStructures_ptr
                      (simplifyTrivialStructures_ptr next)
                    = simplifyTrivialStructures_ptr next).
    { destruct next as [n |]; [| reflexivity]. simpl.
      rewrite (IHnext n eq_refl); [reflexivity |].
      simpl in Hst. apply andb_prop in Hst. apply Hst. }
    wrapper_cases ty g Hty.
    + rewrite simplify_struct_trivial.
      simpl in Hst. apply andb_prop in Hst. destruct Hst as [Hg _].
      apply negb_true_iff in Hg.
      rewrite simplify_struct_other by (now rewrite trivialStruct_simplify).
      now rewrite Hnext.
    + rewrite !(simplify_struct_other _ _ _ Hty). now rewrite Hnext.
Qed.

Lemma nodes_simplify_bounded (n : nat) :
  forall obj, (nodes obj <= n)%nat ->
              (nodes (simplifyTrivialStructures obj) <= nodes obj)%nat.
Proof.
  induction n as [| n IH]; intros obj Hn.
  - destruct obj; simpl in Hn; lia.
  - destruct obj as [c | elem count | off ty next].
    + simpl. lia.
    + simpl in *. specialize (IH elem). lia.
    + assert (Hnext : (match simplifyTrivialStructures_ptr next with
                       | None => 0 | Some m => nodes m end
                       <= match next with None => 0 | Some m => nodes m end)%nat).
      { destruct next as [m |]; simpl; [| lia].
        apply IH. simpl in Hn. lia. }
      wrapper_cases ty g Hty.
      * rewrite simplify_struct_trivial.
        assert (Hg : (nodes (simplifyTrivialStructures g) <= nodes g)%nat).
        { apply IH. simpl in Hn. lia. }
        simpl in *. lia.
      * rewrite (simplify_struct_other _ _ _ Hty). simpl in *. lia.
Qed.

Lemma nodes_simplify obj :
  (nodes (simplifyTrivialStructures obj) <= nodes obj)%nat.
Proof. apply (nodes_simplify_bounded (nodes obj)). lia. Qed.

(** The condition of [simplify_stable] is necessary as well: where a wrapper
    around a wrapper is on the path, the second run removes a node. *)
Lemma simplify_fixed_stable obj :
  simplifyTrivialStructures (simplifyTrivialStructures obj)
  = simplifyTrivialStructures obj ->
  stable obj = true.
Proof.
  induction obj as [c | elem count IH | off ty next _ IHnext]
    using StackObject_induction; intros Heq.
  - reflexivity.
  - simpl in *. apply IH. now injection Heq.
  - assert (Hstep : forall fieldType,
               trivialStruct fieldType = false ->
               simplifyTrivialStructures
                 (StructField off fieldType (simplifyTrivialStructures_ptr next))
               = StructField off fieldType (simplifyTrivialStructures_ptr next) ->
               match next with None => true | Some n => stable n end = true).
    { intros ft Hft H. rewrite (simplify_struct_other _ _ _ Hft) in H.
      destruct next as [n |]; [| reflexivity].
      apply (IHnext n eq_refl). simpl in H. now injection H. }
    wrapper_cases ty g Hty.
    + rewrite simplify_struct_trivial in Heq.
      destruct (trivialStruct g) eqn:Hg.
      * exfalso.
        assert (Hw : trivialStruct (simplifyTrivialStructures g) = true)
          by now rewrite trivialStruct_simplify.
        destruct (trivialStruct_true _ Hw) as [y Hy]. rewrite Hy in Heq.
        rewrite simplify_struct_trivial in Heq.
        injection Heq as Hsize _.
        pose proof (nodes_simplify y) as Hle.
        rewrite Hsize in Hle. simpl in Hle. lia.
      * simpl. rewrite Hg. simpl.
        apply (Hstep (simplifyTrivialStructures g));
          [now rewrite trivialStruct_simplify | exact Heq].
    + rewrite (simplify_struct_other _ _ _ Hty) in Heq.
      assert (Hm : match ty with
                   | StructField 0 grandchild None => negb (trivialStruct grandchild)
                   | _ => true end = true).
      { destruct ty as [c | e n | o g nx]; try reflexivity.
        destruct o; try reflexivity. destruct nx; try reflexivity.
        discriminate Hty. }
      simpl. rewrite Hm. simpl. apply (Hstep ty Hty Heq).
Qed.

(** ** The ordered map *)

Module StdMapFacts.

Import StdMap.

Section WithValue.
Context {V : Type}.
Implicit Types (m : t V) (k : Z) (v : V).


Lemma sorted_nil : sorted (@nil (Z * V)).
Proof. constructor. Qed.

Lemma keys_insert_In k v m k' :
  In k' (keys (insert k v m)) -> k' = k \/ In k' (keys m).
Proof.
  induction m as [| [k0 v0] rest IH]; simpl.
  - intros [H | []]. now left.
  - destruct (k <? k0) eqn:Hlt; [| destruct (k =? k0) eqn:Heq]; simpl.
    + intros [H | H]; [now left | now right].
    + intros H. now right.
    + intros [H | H]; [right; now left |].
      destruct (IH H) as [H' | H']; [now left | right; now right].
Qed.

Lemma insert_sorted k v m : sorted m -> sorted (insert k v m).
Proof.
  unfold sorted. induction m as [| [k0 v0] rest IH]; simpl; intros Hs.
  - repeat constructor.
  - destruct (k <? k0) eqn:Hlt; [| destruct (k =? k0) eqn:Heq]; simpl.
    + apply Z.ltb_lt in Hlt. constructor; [exact Hs |].
      constructor; [exact Hlt |].
      inversion Hs as [| ? ? _ Hall]; subst.
      eapply Forall_impl; [| exact Hall]. simpl. intros; lia.
    + exact Hs.
    + apply Z.ltb_ge in Hlt. apply Z.eqb_neq in Heq.
      inversion Hs as [| ? ? Hrest Hall]; subst.
      constructor; [now apply IH |].
      apply Forall_forall. intros k' Hin.
      destruct (keys_insert_In _ _ _ _ Hin) as [-> | Hin'];
        [lia | exact (proj1 (Forall_forall _ _) Hall _ Hin')].
Qed.

Lemma find_not_In k m : ~ In k (keys m) -> find k m = None.
Proof.
  induction m as [| [k0 v0] rest IH]; simpl; intros Hn; [reflexivity |].
  destruct (k =? k0) eqn:Heq.
  - apply Z.eqb_eq in Heq. exfalso. apply Hn. now left.
  - apply IH. intros H. apply Hn. now right.
Qed.

Lemma find_Some_In k m v : find k m = Some v -> In k (keys m).
Proof.
  induction m as [| [k0 v0] rest IH]; simpl; [discriminate |].
  destruct (k =? k0) eqn:Heq.
  - apply Z.eqb_eq in Heq. intros _. now left.
  - intros H. right. now apply IH.
Qed.

(** An existing key keeps its entry; a new key gets the inserted one. *)
Lemma find_insert k v m k' :
  sorted m ->
  find k' (insert k v m)
  = match find k' m with
    | Some x => Some x
    | None => if k' =? k then Some v else None
    end.
Proof.
  unfold sorted. induction m as [| [k0 v0] rest IH]; simpl; intros Hs.
  - reflexivity.
  - inversion Hs as [| ? ? Hrest Hall]; subst.
    destruct (k <? k0) eqn:Hlt; [| destruct (k =? k0) eqn:Heq]; simpl.
    + apply Z.ltb_lt in Hlt.
      destruct (k' =? k) eqn:Hk';
        [| destruct (k' =? k0); [| destruct (find k' rest)]; reflexivity].
      apply Z.eqb_eq in Hk'. subst k'.
      replace (k =? k0) with false by (symmetry; apply Z.eqb_neq; lia).
      rewrite find_not_In; [reflexivity |].
      intros Hin. pose proof (proj1 (Forall_forall _ _) Hall _ Hin). lia.
    + apply Z.eqb_eq in Heq. subst k0.
      destruct (k' =? k) eqn:Hk'; [reflexivity |].
      destruct (find k' rest); reflexivity.
    + destruct (k' =? k0) eqn:Hk0; [reflexivity | now apply IH].
Qed.

Lemma insert_existing k v m :
  sorted m -> In k (keys m) -> insert k v m = m.
Proof.
  unfold sorted. induction m as [| [k0 v0] rest IH]; simpl; intros Hs Hin.
  - destruct Hin.
  - inversion Hs as [| ? ? Hrest Hall]; subst.
    destruct (k <? k0) eqn:Hlt; [| destruct (k =? k0) eqn:Heq].
    + apply Z.ltb_lt in Hlt. destruct Hin as [H | H]; [lia |].
      pose proof (proj1 (Forall_forall _ _) Hall _ H). lia.
    + reflexivity.
    + apply Z.eqb_neq in Heq. destruct Hin as [H | H]; [congruence |].
      f_equal. now apply IH.
Qed.

(** [begin()] holds the least key. *)
Lemma front_least m f :
  sorted m -> front m = Some f -> Forall (fun k => f <= k) (keys m).
Proof.
  unfold sorted, front. destruct m as [| [k0 v0] rest]; simpl;
    intros Hs Hf; [discriminate |].
  injection Hf as <-. inversion Hs as [| ? ? _ Hall]; subst.
  constructor; [lia |].
  eapply Forall_impl; [| exact Hall]. simpl. intros; lia.
Qed.

Lemma insert_values (P : V -> Prop) k v m :
  P v -> Forall (fun p => P (snd p)) m ->
  Forall (fun p => P (snd p)) (insert k v m).
Proof.
  intros Hv. induction m as [| [k0 v0] rest IH]; simpl; intros Hm.
  - now constructor.
  - destruct (k <? k0); [| destruct (k =? k0)].
    + now constructor.
    + exact Hm.
    + inversion Hm; subst. constructor; [assumption | now apply IH].
Qed.

Lemma insert_keys (P : Z -> Prop) k v m :
  P k -> Forall P (keys m) -> Forall P (keys (insert k v m)).
Proof.
  intros Hk Hm. apply Forall_forall. intros k' Hin.
  destruct (keys_insert_In _ _ _ _ Hin) as [-> | H]; [exact Hk |].
  exact (proj1 (Forall_forall _ _) Hm _ H).
Qed.

End WithValue.

End StdMapFacts.

(** ** The classification of the uses *)

Lemma to_int64_range u : INT64_MIN <= to_int64 u <= INT64_MAX.
Proof.
  unfold to_int64, INT64_MIN, INT64_MAX.
  pose proof (Z.mod_pos_bound (Z.of_N u) (2 ^ 64) ltac:(lia)) as Hb.
  destruct (Z.of_N u mod 2 ^ 64 <? 2 ^ 63) eqn:Hlt.
  - apply Z.ltb_lt in Hlt. lia.
  - apply Z.ltb_ge in Hlt. lia.
Qed.

Lemma Value_eqb_refl v : Value_eqb v v = true.
Proof.
  destruct v; simpl;
    [apply N.eqb_refl | apply Nat.eqb_refl | apply Nat.eqb_refl
     | apply String.eqb_refl].
Qed.


Lemma emptyAnalysis_inv : analysisInv emptyAnalysis.
Proof.
  split; simpl; try constructor. 
Qed.

Lemma recordOffset_inv k inst st :
  INT64_MIN <= k <= INT64_MAX ->
  analysisInv st -> analysisInv (recordOffset k inst st).
Proof.
  intros Hk [Hs Hv Hr Hst]. split; simpl.
  - now apply StdMapFacts.insert_sorted.
  - apply (StdMapFacts.insert_values (fun v => v <> None));
      [discriminate | exact Hv].
  - now apply StdMapFacts.insert_keys.
  - exact Hst.
Qed.

Lemma recordCast_inv inst st : analysisInv st -> analysisInv (recordCast inst st).
Proof. intros [Hs Hv Hr Hst]. now split. Qed.

Section AnalyzeUsers.

Variable base : Value.

Lemma analyzeUsers_inv us :
  forall st, analysisInv st -> analysisInv (snd (analyzeUsers base us st)).
Proof.
  induction us as [| [id inst] rest IH]; intros st Hst; simpl; [exact Hst |].
  destruct inst as [opcode op0 op1 | opcode op | ty p | ty v p | a b | ops];
    try (now apply IH).
  - destruct (negb (isAdd opcode)); [exact Hst |].
    destruct (rightOperand base op0 op1); try exact Hst.
    apply IH. apply recordOffset_inv; [apply to_int64_range | exact Hst].
  - destruct (isIntToPtr opcode); apply IH;
      [now apply recordCast_inv | exact Hst].
Qed.

(** Uses that are not inspected do not take part in the classification. *)
Lemma analyzeUsers_inspected us :
  forall st,
    analyzeUsers base (filter inspected us) st = analyzeUsers base us st.
Proof.
  induction us as [| [id inst] rest IH]; intros st; [reflexivity |].
  destruct inst as [opcode op0 op1 | opcode op | ty p | ty v p | a b | ops];
    try (simpl; now apply IH).
  - cbn [filter inspected snd]. simpl.
    destruct (negb (isAdd opcode)); [reflexivity |].
    destruct (rightOperand base op0 op1); try reflexivity. apply IH.
  - cbn [filter inspected snd]. destruct (isIntToPtr opcode) eqn:Hop.
    + simpl. rewrite Hop. apply IH.
    + simpl. rewrite Hop. apply IH.
Qed.

(** The entry of a key after the loop: the entry it had before, or else the
    first use recorded under it. *)
Lemma analyzeUsers_find k us :
  forall st st',
    StdMap.sorted (constantOffsets st) ->
    analyzeUsers base us st = (true, st') ->
    StdMap.find k (constantOffsets st')
    = match StdMap.find k (constantOffsets st) with
      | Some v => Some v
      | None => option_map Some (firstOffsetUse base k us)
      end.
Proof.
  induction us as [| [id inst] rest IH]; intros st st' Hs Hrun.
  - simpl in Hrun. injection Hrun as <-. simpl.
    destruct (StdMap.find k (constantOffsets st)); reflexivity.
  - destruct inst as [opcode op0 op1 | opcode op | ty p | ty v p | a b | ops];
      try (simpl in Hrun; rewrite (IH _ _ Hs Hrun); reflexivity).
    + simpl in Hrun. unfold offsetKey. cbn [firstOffsetUse offsetKey snd fst].
      destruct opcode; try discriminate Hrun. simpl in Hrun.
      destruct (rightOperand base op0 op1) as [c | | |] eqn:Hr;
        try discriminate Hrun.
      rewrite (IH (recordOffset (to_int64 (getLimitedValue c)) id st) st'
                  (StdMapFacts.insert_sorted _ _ _ Hs) Hrun).
      simpl. rewrite (StdMapFacts.find_insert _ _ _ _ Hs).
      destruct (StdMap.find k (constantOffsets st)); [reflexivity |].
      destruct (k =? to_int64 (getLimitedValue c)); reflexivity.
    + simpl in Hrun. destruct (isIntToPtr opcode).
      * rewrite (IH (recordCast id st) st' Hs Hrun). reflexivity.
      * rewrite (IH st st' Hs Hrun). reflexivity.
Qed.

(** An addition of a non-constant operand ends the loop with [false],
    wherever it stands in the use list. *)
Lemma analyzeUsers_nonconstant id op0 op1 us :
  In (id, BinaryOperator Add op0 op1) us ->
  (forall c, rightOperand base op0 op1 <> ConstantInt c) ->
  forall st, fst (analyzeUsers base us st) = false.
Proof.
  intros Hin Hnc. induction us as [| [id' inst] rest IH]; [destruct Hin |].
  intros st. destruct Hin as [Heq | Hin].
  - injection Heq as -> ->. simpl.
    destruct (rightOperand base op0 op1) as [c | | |] eqn:Hr; try reflexivity.
    exfalso. exact (Hnc c eq_refl).
  - specialize (IH Hin).
    destruct inst as [opcode a b | opcode op | ty p | ty v p | a b | ops];
      simpl; try apply IH.
    + destruct (negb (isAdd opcode)); [reflexivity |].
      destruct (rightOperand base a b); try reflexivity. apply IH.
    + destruct (isIntToPtr opcode); apply IH.
Qed.

End AnalyzeUsers.

(** ** The loop that builds the fields *)

Lemma sub_int64_Ok a b d : sub_int64 a b = Ok d -> d = a - b.
Proof.
  unfold sub_int64. destruct ((INT64_MIN <=? a - b) && (a - b <=? INT64_MAX));
    [now injection 1 | discriminate].
Qed.

Section ReadFields.

Variable readBase : Value -> result (option StackObject).
Variable front : Z.
Variable offset0 : option StackObject.

(** An entry whose child is not recovered leaves the loop as it would be
    without the entry. *)
Lemma readFields_unrecovered_child p1 k v p2 :
  readChild readBase offset0 v = Ok None ->
  readFields readBase front offset0 (p1 ++ (k, v) :: p2)
  = readFields readBase front offset0 (p1 ++ p2).
Proof.
  intros Hv. induction p1 as [| [k1 v1] p1 IH]; simpl.
  - now rewrite Hv.
  - destruct (readChild readBase offset0 v1) as [[c |] | e]; simpl;
      [| exact IH | reflexivity].
    destruct (sub_int64 k1 front); simpl; [| reflexivity].
    now rewrite IH.
Qed.

(** A loop that completes has made the chain of the surviving fields, and
    every child it asked for has returned. *)
Lemma readFields_Ok pairs :
  forall r,
    readFields readBase front offset0 pairs = Ok r ->
    r = mkStruct (survivors readBase front offset0 pairs)
    /\ Forall (fun p => exists c, readChild readBase offset0 (snd p) = Ok c)
              pairs.
Proof.
  induction pairs as [| [k v] rest IH]; simpl; intros r Hr.
  - injection Hr as <-. split; [reflexivity | constructor].
  - unfold survivors in *. simpl.
    destruct (readChild readBase offset0 v) as [[c |] | e] eqn:Hc;
      simpl in Hr; [| | discriminate Hr].
    + destruct (sub_int64 k front) as [off | e] eqn:Hoff; simpl in Hr;
        [| discriminate Hr].
      apply sub_int64_Ok in Hoff. subst off.
      destruct (readFields readBase front offset0 rest) as [next | e] eqn:Hn;
        simpl in Hr; [| discriminate Hr].
      injection Hr as <-. destruct (IH next eq_refl) as [-> Hall].
      split; [reflexivity |]. constructor; [| exact Hall]. now exists (Some c).
    + destruct (IH r Hr) as [-> Hall].
      split; [reflexivity |]. constructor; [| exact Hall]. now exists None.
Qed.

Lemma survivors_offsets pairs f :
  In f (survivors readBase front offset0 pairs) ->
  exists k, In k (StdMap.keys pairs) /\ fst f = k - front.
Proof.
  unfold survivors. induction pairs as [| [k v] rest IH]; simpl;
    [intros [] |].
  intros Hin. apply in_app_or in Hin. destruct Hin as [Hin | Hin].
  - exists k. split; [now left |].
    destruct (readChild readBase offset0 v) as [[c |] | e];
      try destruct Hin as [<- | []]; try destruct Hin. reflexivity.
  - destruct (IH Hin) as (k' & Hk' & Hf). exists k'. split; [now right | exact Hf].
Qed.

(** The fields keep the order of the keys. *)
Lemma survivors_sorted pairs :
  StdMap.sorted pairs ->
  StronglySorted Z.lt (map fst (survivors readBase front offset0 pairs)).
Proof.
  unfold StdMap.sorted.
  induction pairs as [| [k v] rest IH]; simpl; intros Hs; [constructor |].
  inversion Hs as [| ? ? Hrest Hall]; subst.
  change (survivors readBase front offset0 ((k, v) :: rest))
    with (match readChild readBase offset0 v with
          | Ok (Some c) => [(k - front, c)]
          | _ => []
          end ++ survivors readBase front offset0 rest).
  assert (Htail : Forall (Z.lt (k - front))
                    (map fst (survivors readBase front offset0 rest))).
  { apply Forall_forall. intros o Hin. apply in_map_iff in Hin.
    destruct Hin as (f & <- & Hin).
    destruct (survivors_offsets _ _ Hin) as (k' & Hk' & ->).
    pose proof (proj1 (Forall_forall _ _) Hall _ Hk'). lia. }
  destruct (readChild readBase offset0 v) as [[c |] | e]; simpl;
    [constructor; [now apply IH | exact Htail] | now apply IH | now apply IH].
Qed.

(** Offsets are taken from the least key, so none is negative. *)
Lemma survivors_nonneg pairs :
  Forall (fun k => front <= k) (StdMap.keys pairs) ->
  Forall (fun f => 0 <= fst f) (survivors readBase front offset0 pairs).
Proof.
  intros Hall. apply Forall_forall. intros f Hin.
  destruct (survivors_offsets _ _ Hin) as (k & Hk & ->).
  pose proof (proj1 (Forall_forall _ _) Hall _ Hk) as Hle.
  simpl in Hle. lia.
Qed.

(** When no entry is the synthetic one, the direct interpretation is not
    consulted. *)
Lemma readFields_no_synthetic pairs :
  Forall (fun p => snd p <> None) pairs ->
  readFields readBase front offset0 pairs
  = readFields readBase front None pairs.
Proof.
  induction pairs as [| [k v] rest IH]; simpl; intros Hall; [reflexivity |].
  inversion Hall as [| ? ? Hv Hrest]; subst. simpl in Hv.
  destruct v as [inst |]; [| congruence]. simpl.
  now rewrite (IH Hrest).
Qed.

End ReadFields.

(** ** The builder, one level *)

Lemma readObject_S {NDEBUG : bool} fuel fn base :
  readObject NDEBUG (S fuel) fn base
  = readObjectBody NDEBUG fn (readObject NDEBUG fuel fn) base.
Proof. reflexivity. Qed.

Lemma analyzeObject_inv fn base :
  analysisInv (snd (analyzeObject fn base emptyAnalysis)).
Proof. apply analyzeUsers_inv, emptyAnalysis_inv. Qed.

Lemma readObjectBody_failed {NDEBUG : bool} fn readBase base :
  fst (analyzeObject fn base emptyAnalysis) = false ->
  readObjectBody NDEBUG fn readBase base = Ok None.
Proof.
  unfold readObjectBody.
  destruct (analyzeObject fn base emptyAnalysis) as [ok st].
  simpl. now intros ->.
Qed.

Lemma readObjectBody_analyzed {NDEBUG : bool} fn readBase base st :
  analyzeObject fn base emptyAnalysis = (true, st) ->
  readObjectBody NDEBUG fn readBase base
  = readStruct NDEBUG readBase (option_map Object (castedAs st))
      (withOffset0 (option_map Object (castedAs st)) (constantOffsets st)).
Proof.
  intros Hrun. unfold readObjectBody.
  pose proof (analyzeObject_inv fn base) as Hinv. rewrite Hrun in *.
  simpl in Hinv. now rewrite (inv_strides _ Hinv).
Qed.

Lemma withOffset0_sorted offset0 offsets :
  StdMap.sorted offsets -> StdMap.sorted (withOffset0 offset0 offsets).
Proof.
  destruct offset0; simpl; [apply StdMapFacts.insert_sorted | trivial].
Qed.

Lemma readFields_ext rb1 rb2 front offset0 pairs :
  (forall v, rb1 v = rb2 v) ->
  readFields rb1 front offset0 pairs = readFields rb2 front offset0 pairs.
Proof.
  intros Hext. induction pairs as [| [k v] rest IH]; simpl; [reflexivity |].
  rewrite IH. destruct v as [inst |]; simpl; [now rewrite Hext | reflexivity].
Qed.

Lemma readStruct_ext {NDEBUG : bool} rb1 rb2 offset0 offsets :
  (forall v, rb1 v = rb2 v) ->
  readStruct NDEBUG rb1 offset0 offsets = readStruct NDEBUG rb2 offset0 offsets.
Proof.
  intros Hext. unfold readStruct.
  destruct (StdMap.front offsets), (StdMap.back offsets); try reflexivity.
  now rewrite (readFields_ext rb1 rb2 _ _ _ Hext).
Qed.

Lemma string_app_assoc (a b c : string) :
  ((a ++ b) ++ c = a ++ (b ++ c))%string.
Proof. induction a as [| ch a IH]; simpl; [reflexivity | now rewrite IH]. Qed.

(** ** Properties of the frame report *)

(** C7: a use that adds a non-constant operand to the base makes the builder
    return "unrecoverable" ([nullptr]) for that base, whatever constant-offset
    additions and casts the base has besides; the report of the function is
    then the empty line. *)
Theorem variable_offset_unrecoverable (NDEBUG : bool)
        (fuel : nat) (fn : Function) (base : Value)
        (id : nat) (op0 op1 : Value) :
  In (id, BinaryOperator Add op0 op1) (users fn base) ->
  (forall c, rightOperand base op0 op1 <> ConstantInt c) ->
  readObject NDEBUG (S fuel) fn base = Ok None
  /\ forall name index,
      base = Argument index ->
      runOnFunction NDEBUG (S fuel) name fn (Some index)
      = Ok (name ++ ": " ++ endl)%string.
Proof.
  intros Hin Hnc.
  assert (Hread : readObject NDEBUG (S fuel) fn base = Ok None).
  { rewrite readObject_S. apply readObjectBody_failed.
    unfold analyzeObject. now apply analyzeUsers_nonconstant with id op0 op1. }
  split; [exact Hread |].
  intros name index ->. unfold runOnFunction. now rewrite Hread.
Qed.


Lemma variable_offset_unrecoverable_witness :
  In (1%nat, BinaryOperator Add (Argument 0) (Argument 1))
     (users variableOffsetFn (Argument 0))
  /\ readObject false 1 variableOffsetFn (Argument 0) = Ok None
  /\ runOnFunction false 1 "f" variableOffsetFn (Some 0%nat)
     = Ok ("f: " ++ endl)%string.
Proof.
  assert (Hin : In (1%nat, BinaryOperator Add (Argument 0) (Argument 1))
                   (users variableOffsetFn (Argument 0))).
  { vm_compute. right. left. reflexivity. }
  destruct (variable_offset_unrecoverable false 0 variableOffsetFn (Argument 0) 1
              (Argument 0) (Argument 1) Hin) as [Hread Hrep].
  - intros c. vm_compute. discriminate.
  - split; [exact Hin |]. split; [exact Hread |]. now apply Hrep.
Defined.

(** C1, as the code has it: when the only inspected use of a base is one
    int-to-pointer cast, and that cast feeds exactly one load, of type [T],
    the builder returns a struct with a single field at relative offset 0
    whose type is the scalar node of the cast; the type set of that scalar is
    exactly {T}; the normalizer leaves the tree as it is, and the report is
    [{0: (T)}]. *)
Theorem single_cast_struct (NDEBUG : bool)
        (fuel : nat) (fn : Function) (base : Value)
        (c l : nat) (op ptr : Value) (T : Ty) :
  filter inspected (users fn base) = [(c, CastInst IntToPtr op)] ->
  users fn (InstValue c) = [(l, LoadInst T ptr)] ->
  readObject NDEBUG (S fuel) fn base = Ok (Some (StructField 0 (Object c) None))
  /\ getPointerCastTypes fn c [] = [T]
  /\ simplifyTrivialStructures (StructField 0 (Object c) None)
     = StructField 0 (Object c) None
  /\ print NDEBUG fn (StructField 0 (Object c) None)
     = Ok ("{0: (" ++ T ++ ")}")%string
  /\ forall name index,
      base = Argument index ->
      runOnFunction NDEBUG (S fuel) name fn (Some index)
      = Ok (name ++ ": " ++ ("{0: (" ++ T ++ ")}") ++ endl)%string.
Proof.
  intros Hbase Hcast.
  assert (Hread : readObject NDEBUG (S fuel) fn base
                  = Ok (Some (StructField 0 (Object c) None))).
  { rewrite readObject_S. unfold readObjectBody, analyzeObject.
    rewrite <- analyzeUsers_inspected, Hbase. reflexivity. }
  assert (Htypes : getPointerCastTypes fn c [] = [T]).
  { unfold getPointerCastTypes. rewrite Hcast. reflexivity. }
  assert (Hprint : print NDEBUG fn (StructField 0 (Object c) None)
                   = Ok ("{0: (" ++ T ++ ")}")%string).
  { simpl. rewrite Htypes. simpl. now rewrite string_app_assoc. }
  repeat split; try assumption.
  intros name index ->. unfold runOnFunction. rewrite Hread.
  cbn [bind simplifyTrivialStructures]. rewrite Hprint. reflexivity.
Qed.

Lemma single_cast_struct_witness :
  filter inspected (users singleCastFn (Argument 0))
  = [(0%nat, CastInst IntToPtr (Argument 0))]
  /\ users singleCastFn (InstValue 0) = [(1%nat, LoadInst "int8" (InstValue 0))]
  /\ readObject false 1 singleCastFn (Argument 0)
     = Ok (Some (StructField 0 (Object 0) None))
  /\ runOnFunction false 1 "f" singleCastFn (Some 0%nat)
     = Ok ("f: {0: (int8)}" ++ endl)%string.
Proof.
  destruct (single_cast_struct false 0 singleCastFn (Argument 0) 0 1
              (Argument 0) (InstValue 0) "int8" eq_refl eq_refl)
    as (Hread & _ & _ & _ & Hrep).
  split; [reflexivity |]. split; [reflexivity |].
  split; [exact Hread | exact (Hrep "f"%string 0%nat eq_refl)].
Defined.

(** C1 as stated fails: for a stack pointer whose only use is a cast loaded
    from as [int8], the builder returns a struct that wraps the scalar, not
    the scalar, and the report is not [(int8)]. *)
Lemma single_cast_not_scalar :
  readObject false 1 singleCastFn (Argument 0)
  = Ok (Some (StructField 0 (Object 0) None))
  /\ readObject false 1 singleCastFn (Argument 0) <> Ok (Some (Object 0))
  /\ runOnFunction false 1 "f" singleCastFn (Some 0%nat)
     = Ok ("f: {0: (int8)}" ++ endl)%string
  /\ runOnFunction false 1 "f" singleCastFn (Some 0%nat)
     <> Ok ("f: (int8)" ++ endl)%string.
Proof.
  repeat split; try reflexivity; vm_compute; discriminate.
Qed.

(** C2: when the uses of the stack pointer are exactly [sp + 0] and [sp + 4],
    each cast to a pointer that is loaded from once as [int32], builder,
    normalizer and printer together write [{0: (int32), 4: (int32)}]. *)
Theorem two_fields_report (NDEBUG : bool)
        (fuel : nat) (name : string) (fn : Function) (index : nat)
        (a0 a4 c0 c4 l0 l4 : nat) (op0 op4 p0 p4 : Value) :
  let base := Argument index in
  let u0 := (a0, BinaryOperator Add base (ConstantInt 0)) in
  let u4 := (a4, BinaryOperator Add base (ConstantInt 4)) in
  users fn base = [u0; u4] \/ users fn base = [u4; u0] ->
  users fn (InstValue a0) = [(c0, CastInst IntToPtr op0)] ->
  users fn (InstValue a4) = [(c4, CastInst IntToPtr op4)] ->
  users fn (InstValue c0) = [(l0, LoadInst "int32" p0)] ->
  users fn (InstValue c4) = [(l4, LoadInst "int32" p4)] ->
  runOnFunction NDEBUG (S (S fuel)) name fn (Some index)
  = Ok (name ++ ": " ++ "{0: (int32), 4: (int32)}" ++ endl)%string.
Proof.
  intros base u0 u4 Hbase Ha0 Ha4 Hc0 Hc4.
  assert (Hchild0 : readObject NDEBUG (S fuel) fn (InstValue a0)
                    = Ok (Some (StructField 0 (Object c0) None))).
  { rewrite readObject_S. unfold readObjectBody, analyzeObject.
    rewrite Ha0. reflexivity. }
  assert (Hchild4 : readObject NDEBUG (S fuel) fn (InstValue a4)
                    = Ok (Some (StructField 0 (Object c4) None))).
  { rewrite readObject_S. unfold readObjectBody, analyzeObject.
    rewrite Ha4. reflexivity. }
  assert (Hroot : readObject NDEBUG (S (S fuel)) fn base
                  = Ok (Some (StructField 0 (StructField 0 (Object c0) None)
                         (Some (StructField 4 (StructField 0 (Object c4) None)
                                  None))))).
  { rewrite readObject_S. unfold readObjectBody, analyzeObject.
    assert (Hk0 : to_int64 (getLimitedValue 0) = 0) by (vm_compute; reflexivity).
    assert (Hk4 : to_int64 (getLimitedValue 4) = 4) by (vm_compute; reflexivity).
    destruct Hbase as [-> | ->]; subst u0 u4 base;
      cbn [analyzeUsers isAdd negb]; unfold rightOperand;
      rewrite Value_eqb_refl, Hk0, Hk4;
      cbn -[readObject]; rewrite Hchild0; cbn -[readObject];
      rewrite Hchild4; reflexivity. }
  unfold runOnFunction. fold base. rewrite Hroot.
  cbn [bind simplifyTrivialStructures print printFields].
  unfold getPointerCastTypes. rewrite Hc0, Hc4. reflexivity.
Qed.

Lemma two_fields_report_witness :
  users twoFieldsFn (Argument 0)
  = [(0%nat, BinaryOperator Add (Argument 0) (ConstantInt 0));
     (1%nat, BinaryOperator Add (Argument 0) (ConstantInt 4))]
  /\ runOnFunction false 2 "f" twoFieldsFn (Some 0%nat)
     = Ok ("f: {0: (int32), 4: (int32)}" ++ endl)%string.
Proof.
  split; [reflexivity |].
  apply (two_fields_report false 0 "f" twoFieldsFn 0 0 1 2 3 4 5
           (InstValue 0) (InstValue 1) (InstValue 2) (InstValue 3));
    [left |..]; reflexivity.
Defined.

(** C3, as the code has it: a struct with a single field at relative offset 0
    whose type is a struct with a single field at relative offset 0 and field
    type [T] is normalized to a struct with a single field at relative
    offset 0 whose type is the normalized [T]: the inner wrapper goes, the
    outer struct node stays. *)
Theorem normalizer_collapse (T : StackObject) :
  simplifyTrivialStructures (StructField 0 (StructField 0 T None) None)
  = StructField 0 (simplifyTrivialStructures T) None.
Proof. exact (simplify_struct_trivial 0 T None). Qed.

(** C3 as stated fails: with a scalar for [T], the normalized tree is the
    one-field struct around the scalar and not the scalar. *)
Lemma normalizer_collapse_keeps_wrapper :
  simplifyTrivialStructures
    (StructField 0 (StructField 0 (Object 0) None) None)
  = StructField 0 (Object 0) None
  /\ simplifyTrivialStructures
       (StructField 0 (StructField 0 (Object 0) None) None)
     <> Object 0.
Proof. split; [reflexivity | discriminate]. Qed.

(** C4, as the code has it: on a tree in which no struct field on the path of
    the normalizer has for its type a one-field offset-0 struct around another
    one-field offset-0 struct, a second run of the normalizer changes nothing,
    and the tree after two runs prints as the tree after one. *)
Theorem normalizer_idempotent_when_stable
        (NDEBUG : bool) (fn : Function) (obj : StackObject) :
  stable obj = true ->
  simplifyTrivialStructures (simplifyTrivialStructures obj)
  = simplifyTrivialStructures obj
  /\ print NDEBUG fn (simplifyTrivialStructures (simplifyTrivialStructures obj))
     = print NDEBUG fn (simplifyTrivialStructures obj).
Proof.
  intros Hst. pose proof (simplify_stable obj Hst) as Heq.
  split; [exact Heq | now rewrite Heq].
Qed.

Lemma normalizer_idempotent_when_stable_witness :
  stable (StructField 0 (StructField 0 (Object 2) None)
            (Some (StructField 4 (StructField 0 (Object 3) None) None))) = true
  /\ print false twoFieldsFn
       (simplifyTrivialStructures
          (simplifyTrivialStructures
             (StructField 0 (StructField 0 (Object 2) None)
                (Some (StructField 4 (StructField 0 (Object 3) None) None)))))
     = print false twoFieldsFn
         (simplifyTrivialStructures
            (StructField 0 (StructField 0 (Object 2) None)
               (Some (StructField 4 (StructField 0 (Object 3) None) None)))).
Proof.
  split; [reflexivity |].
  apply (normalizer_idempotent_when_stable false twoFieldsFn
           (StructField 0 (StructField 0 (Object 2) None)
              (Some (StructField 4 (StructField 0 (Object 3) None) None)))).
  reflexivity.
Defined.

(** C4 as stated fails: the tree the builder returns for [(sp + 8) + 4] is
    three wrappers around a scalar; one run of the normalizer leaves two, a
    second run leaves one, and the two print differently. *)
Lemma normalizer_not_idempotent :
  readObject false 3 nestedOffsetFn (Argument 0) = Ok (Some threeWrappers)
  /\ print false nestedOffsetFn (simplifyTrivialStructures threeWrappers)
     = Ok "{0: {0: (int32)}}"%string
  /\ print false nestedOffsetFn
       (simplifyTrivialStructures (simplifyTrivialStructures threeWrappers))
     = Ok "{0: (int32)}"%string
  /\ print false nestedOffsetFn
       (simplifyTrivialStructures (simplifyTrivialStructures threeWrappers))
     <> print false nestedOffsetFn (simplifyTrivialStructures threeWrappers).
Proof.
  repeat split; try reflexivity. vm_compute. discriminate.
Qed.

(** C8 at the failing input: the stack pointer is cast to a pointer whose
    only user is a call.  The builder makes a scalar node for the cast; its
    set of load and store types is empty, and the assertion of [print]
    fails on the tree the builder returned.  Built with [NDEBUG], [print]
    reads the first element of the empty set instead. *)
Theorem scalar_without_access_fails_assertion :
  readObject false 1 passedPointerFn (Argument 0)
  = Ok (Some (StructField 0 (Object 0) None))
  /\ getPointerCastTypes passedPointerFn 0 [] = []
  /\ print false passedPointerFn
       (simplifyTrivialStructures (StructField 0 (Object 0) None))
     = Abort AssertionFailure
  /\ runOnFunction false 1 "f" passedPointerFn (Some 0%nat)
     = Abort AssertionFailure
  /\ runOnFunction true 1 "f" passedPointerFn (Some 0%nat)
     = Abort UndefinedBehaviour.
Proof. repeat split. Qed.

Lemma firstOffsetUse_first base k us1 u rest :
  (forall w, In w us1 -> offsetKey base w <> Some k) ->
  offsetKey base u = Some k ->
  firstOffsetUse base k (us1 ++ u :: rest) = Some (fst u).
Proof.
  intros Hnone Hu. induction us1 as [| w us1 IH]; simpl.
  - rewrite Hu, Z.eqb_refl. reflexivity.
  - assert (IH' : firstOffsetUse base k (us1 ++ u :: rest) = Some (fst u)).
    { apply IH. intros w' Hw'. apply Hnone. now right. }
    destruct (offsetKey base w) as [k' |] eqn:Hw; [| exact IH'].
    destruct (k =? k') eqn:Hk; [| exact IH'].
    apply Z.eqb_eq in Hk. subst k'. exfalso.
    apply (Hnone w); [now left | exact Hw].
Qed.

Lemma analyzeObject_find fn base st k :
  analyzeObject fn base emptyAnalysis = (true, st) ->
  StdMap.find k (constantOffsets st)
  = option_map Some (firstOffsetUse base k (users fn base)).
Proof.
  intros Hrun. unfold analyzeObject in Hrun.
  now rewrite (analyzeUsers_find base k _ _ _
                 (inv_sorted _ emptyAnalysis_inv) Hrun).
Qed.

(** C5, as the code has it: when two additive uses of a base carry the same
    constant offset, the one visited first stays in the constant-offset map
    (the insertion of the later one does nothing), so the field of that
    offset is built by the recursion into the first-visited addition. *)
Theorem duplicate_offset_first_wins (NDEBUG : bool)
        (fuel : nat) (fn : Function) (base : Value) (st : Analysis)
        (us1 us2 us3 : list User) (u v : User) (k : Z) :
  users fn base = us1 ++ u :: us2 ++ v :: us3 ->
  (forall w, In w us1 -> offsetKey base w <> Some k) ->
  offsetKey base u = Some k ->
  offsetKey base v = Some k ->
  analyzeObject fn base emptyAnalysis = (true, st) ->
  StdMap.find k (constantOffsets st) = Some (Some (fst u))
  /\ forall offset0,
      option_map (readChild (readObject NDEBUG fuel fn) offset0)
                 (StdMap.find k (withOffset0 offset0 (constantOffsets st)))
      = Some (readObject NDEBUG fuel fn (InstValue (fst u))).
Proof.
  intros Husers Hfirst Hu Hv Hrun.
  assert (Hfind : StdMap.find k (constantOffsets st) = Some (Some (fst u))).
  { rewrite (analyzeObject_find _ _ _ k Hrun), Husers.
    now rewrite (firstOffsetUse_first base k us1 u _ Hfirst Hu). }
  split; [exact Hfind |].
  intros offset0. destruct offset0 as [o |]; cbn [withOffset0].
  - pose proof (analyzeObject_inv fn base) as Hinv. rewrite Hrun in Hinv.
    simpl in Hinv.
    rewrite (StdMapFacts.find_insert _ _ _ _ (inv_sorted _ Hinv)), Hfind.
    reflexivity.
  - now rewrite Hfind.
Qed.

Lemma duplicate_offset_first_wins_witness :
  users duplicateOffsetFn (Argument 0)
  = [] ++ (0%nat, BinaryOperator Add (Argument 0) (ConstantInt 4))
       :: [] ++ (1%nat, BinaryOperator Add (Argument 0) (ConstantInt 4)) :: []
  /\ StdMap.find 4
       (constantOffsets
          (snd (analyzeObject duplicateOffsetFn (Argument 0) emptyAnalysis)))
     = Some (Some 0%nat).
Proof.
  split; [reflexivity |].
  refine (proj1 (duplicate_offset_first_wins false 0 duplicateOffsetFn (Argument 0)
                   (snd (analyzeObject duplicateOffsetFn (Argument 0)
                           emptyAnalysis))
                   [] [] []
                   (0%nat, BinaryOperator Add (Argument 0) (ConstantInt 4))
                   (1%nat, BinaryOperator Add (Argument 0) (ConstantInt 4))
                   4 eq_refl _ eq_refl eq_refl eq_refl)).
  intros w [].
Defined.

(** C5 as stated fails: of two additions of 4 to the stack pointer, the map
    keeps the first visited (instruction 0), not the last (instruction 1),
    and the report shows the type accessed through the first. *)
Lemma duplicate_offset_not_last :
  map fst (users duplicateOffsetFn (Argument 0)) = [0%nat; 1%nat]
  /\ constantOffsets
       (snd (analyzeObject duplicateOffsetFn (Argument 0) emptyAnalysis))
     = [(4, Some 0%nat)]
  /\ constantOffsets
       (snd (analyzeObject duplicateOffsetFn (Argument 0) emptyAnalysis))
     <> [(4, Some 1%nat)]
  /\ runOnFunction false 3 "f" duplicateOffsetFn (Some 0%nat)
     = Ok ("f: {0: (int32)}" ++ endl)%string.
Proof.
  repeat split; try reflexivity. vm_compute. discriminate.
Qed.

(** ** Uses the builder does not look at *)

Lemma filter_inspected_usesOf v u :
  inspected u = false -> filter inspected (usesOf v u) = [].
Proof.
  intros Hu. unfold usesOf.
  induction (List.length (filter (Value_eqb v) (operands (snd u)))) as [| m IH];
    simpl; [reflexivity | now rewrite Hu].
Qed.

Lemma usesOf_no_operands v i : usesOf v (i, OtherInst []) = [].
Proof. reflexivity. Qed.

Lemma users_from_index v fn :
  forall n u, In u (flat_map (usesOf v) (enumerate n fn)) -> (n <= fst u)%nat.
Proof.
  induction fn as [| x rest IH]; simpl; intros n u Hin; [destruct Hin |].
  apply in_app_or in Hin. destruct Hin as [Hin | Hin].
  - unfold usesOf in Hin. apply repeat_spec in Hin. subst u. simpl. lia.
  - specialize (IH _ _ Hin). lia.
Qed.

Lemma replaceInst_inspected v inst fn :
  forall i n,
    nth_error fn i = Some inst ->
    inspected (i, inst) = false ->
    filter inspected
      (flat_map (usesOf v) (enumerate n (replaceInst i (OtherInst []) fn)))
    = filter inspected (flat_map (usesOf v) (enumerate n fn)).
Proof.
  induction fn as [| x rest IH]; intros i n Hnth Hins;
    [destruct i; discriminate Hnth |].
  destruct i as [| i]; simpl in *.
  - injection Hnth as ->. rewrite !filter_app.
    rewrite (filter_inspected_usesOf v (n, inst)) by exact Hins.
    reflexivity.
  - rewrite !filter_app. now rewrite (IH i (S n) Hnth Hins).
Qed.

Lemma replaceInst_absent v fn :
  forall i n u,
    In u (flat_map (usesOf v) (enumerate n (replaceInst i (OtherInst []) fn))) ->
    fst u <> (n + i)%nat.
Proof.
  induction fn as [| x rest IH]; intros i n u Hin;
    [destruct i; destruct Hin |].
  destruct i as [| i]; simpl in Hin.
  - apply users_from_index in Hin. lia.
  - apply in_app_or in Hin. destruct Hin as [Hin | Hin].
    + unfold usesOf in Hin. apply repeat_spec in Hin. subst u. simpl. lia.
    + specialize (IH i (S n) u Hin). lia.
Qed.

Lemma analyzeUsers_other_operator base id opcode op0 op1 us :
  In (id, BinaryOperator opcode op0 op1) us ->
  isAdd opcode = false ->
  forall st, fst (analyzeUsers base us st) = false.
Proof.
  intros Hin Hop. induction us as [| [id' inst] rest IH]; [destruct Hin |].
  intros st. destruct Hin as [Heq | Hin].
  - injection Heq as -> ->. simpl. now rewrite Hop.
  - specialize (IH Hin).
    destruct inst as [opcode' a b | opcode' op | ty p | ty v p | a b | ops];
      simpl; try apply IH.
    + destruct (negb (isAdd opcode')); [reflexivity |].
      destruct (rightOperand base a b); try reflexivity. apply IH.
    + destruct (isIntToPtr opcode'); apply IH.
Qed.

(** A binary operator other than an addition among the uses makes the base
    unrecoverable. *)
Lemma other_operator_unrecoverable {NDEBUG : bool} fuel fn base id opcode op0 op1 :
  In (id, BinaryOperator opcode op0 op1) (users fn base) ->
  isAdd opcode = false ->
  readObject NDEBUG (S fuel) fn base = Ok None.
Proof.
  intros Hin Hop. rewrite readObject_S. apply readObjectBody_failed.
  unfold analyzeObject.
  now apply analyzeUsers_other_operator with id opcode op0 op1.
Qed.

(** C6, as the code has it: a use that is neither a binary operator nor an
    int-to-pointer cast (a comparison, a load, a store, a call, another kind
    of cast) is ignored: the builder returns for every base what it returns
    for the function in which that instruction uses nothing, so such a use
    never makes a base unrecoverable.  A binary operator other than an
    addition is not ignored: it makes the base unrecoverable. *)
Theorem uninspected_use_ignored (NDEBUG : bool)
        (fuel : nat) (fn : Function) (i : nat) (inst : Instruction) :
  nth_error fn i = Some inst ->
  inspected (i, inst) = false ->
  (forall base,
      readObject NDEBUG fuel (replaceInst i (OtherInst []) fn) base
      = readObject NDEBUG fuel fn base)
  /\ (forall v u,
        In u (users (replaceInst i (OtherInst []) fn) v) -> fst u <> i)
  /\ (forall base id opcode op0 op1,
        In (id, BinaryOperator opcode op0 op1) (users fn base) ->
        isAdd opcode = false ->
        readObject NDEBUG (S fuel) fn base = Ok None).
Proof.
  intros Hnth Hins. split; [| split].
  - induction fuel as [| fuel IH]; intros base; [reflexivity |].
    rewrite !readObject_S. unfold readObjectBody, analyzeObject.
    rewrite <- (analyzeUsers_inspected base
                  (users (replaceInst i (OtherInst []) fn) base)).
    unfold users at 1.
    rewrite (replaceInst_inspected base inst fn i 0 Hnth Hins).
    fold (users fn base). rewrite analyzeUsers_inspected.
    destruct (analyzeUsers base (users fn base) emptyAnalysis) as [ok st].
    destruct (negb ok); [reflexivity |].
    destruct (0 <? StdMap.size (variableOffsetStrides st))%nat; [reflexivity |].
    apply readStruct_ext. exact IH.
  - intros v u Hin. exact (replaceInst_absent v fn i 0 u Hin).
  - intros base id opcode op0 op1 Hin Hop.
    exact (other_operator_unrecoverable fuel fn base id opcode op0 op1 Hin Hop).
Qed.

Lemma uninspected_use_ignored_witness :
  nth_error comparisonFn 2 = Some (ICmpInst (Argument 0) (ConstantInt 0))
  /\ In (2%nat, ICmpInst (Argument 0) (ConstantInt 0))
        (users comparisonFn (Argument 0))
  /\ readObject false 1 (replaceInst 2 (OtherInst []) comparisonFn) (Argument 0)
     = readObject false 1 comparisonFn (Argument 0)
  /\ readObject false 1 comparisonFn (Argument 0)
     = Ok (Some (StructField 0 (Object 0) None)).
Proof.
  split; [reflexivity |]. split; [right; left; reflexivity |].
  split; [| reflexivity].
  exact (proj1 (uninspected_use_ignored false 1 comparisonFn 2
                  (ICmpInst (Argument 0) (ConstantInt 0)) eq_refl eq_refl)
               (Argument 0)).
Defined.

(** C6 as stated fails: a subtraction from the stack pointer is not ignored.
    With it the builder returns "unrecoverable" although a cast that is
    loaded from is present; with the subtraction made to use nothing the
    builder returns the struct of that cast. *)
Lemma subtraction_not_ignored :
  In (2%nat, BinaryOperator Sub (Argument 0) (ConstantInt 8))
     (users subtractionFn (Argument 0))
  /\ readObject false 1 subtractionFn (Argument 0) = Ok None
  /\ readObject false 1 (replaceInst 2 (OtherInst []) subtractionFn) (Argument 0)
     = Ok (Some (StructField 0 (Object 0) None))
  /\ readObject false 1 subtractionFn (Argument 0)
     <> readObject false 1 (replaceInst 2 (OtherInst []) subtractionFn)
          (Argument 0).
Proof.
  split; [right; left; reflexivity |].
  repeat split; try reflexivity. vm_compute. discriminate.
Qed.

(** ** The struct the builder returns *)

Lemma insert_nonempty {V : Type} k (v : V) m : StdMap.insert k v m <> [].
Proof.
  destruct m as [| [k0 v0] rest]; simpl; [discriminate |].
  destruct (k <? k0); [discriminate |]. destruct (k =? k0); discriminate.
Qed.

Lemma back_of_nonempty {V : Type} (m : StdMap.t V) f :
  StdMap.front m = Some f -> StdMap.back m <> None.
Proof.
  unfold StdMap.front, StdMap.back. destruct m as [| p rest]; simpl;
    [discriminate |].
  intros _. destruct (rev rest ++ [p]) as [| q l] eqn:Hr; [| discriminate].
  destruct (rev rest); discriminate Hr.
Qed.

(** C9: a node the builder returns is a struct whose fields are in ascending
    order of offset; each offset is the distance of an observed offset from
    the least observed offset of the group, so none is negative; and an
    entry whose recursion recovers nothing adds no field, the parent
    returning what it returns for the remaining entries. *)
Theorem struct_fields_ordered_relative (NDEBUG : bool)
        (fuel : nat) (fn : Function) (base : Value) (node : StackObject) :
  readObject NDEBUG (S fuel) fn base = Ok (Some node) ->
  structFieldsInvariant NDEBUG fuel fn base node.
Proof.
  intros H. rewrite readObject_S in H.
  destruct (analyzeObject fn base emptyAnalysis) as [ok st] eqn:Hrun.
  destruct ok.
  2:{ rewrite readObjectBody_failed in H by now rewrite Hrun. discriminate H. }
  rewrite (readObjectBody_analyzed _ _ _ _ Hrun) in H.
  pose proof (analyzeObject_inv fn base) as Hinv. rewrite Hrun in Hinv.
  simpl in Hinv.
  set (offset0 := option_map Object (castedAs st)) in *.
  pose proof (withOffset0_sorted offset0 _ (inv_sorted _ Hinv)) as Hsorted.
  set (offsets := withOffset0 offset0 (constantOffsets st)) in *.
  unfold readStruct in H.
  destruct (StdMap.front offsets) as [front |] eqn:Hfront.
  - destruct (StdMap.back offsets) as [back |] eqn:Hback;
      [| exfalso; exact (back_of_nonempty _ _ Hfront Hback)].
    destruct (assert NDEBUG (offsetsAssertion front back)) as [[] | e];
      simpl in H; [| discriminate H].
    destruct (readFields_Ok _ _ _ _ _ H) as [Hnode _].
    exists st, front. split; [exact Hrun |]. cbv zeta.
    fold offset0. fold offsets.
    split; [exact Hfront |].
    pose proof (StdMapFacts.front_least _ _ Hsorted Hfront) as Hleast.
    split; [exact Hleast |].
    split; [exact Hnode |].
    split; [now apply survivors_sorted |].
    split; [now apply survivors_nonneg |].
    intros p1 k v p2 Hsplit Hchild.
    rewrite <- (readFields_unrecovered_child _ _ _ p1 k v p2 Hchild).
    now rewrite <- Hsplit.
  - exfalso. assert (Hnil : offsets = []).
    { unfold StdMap.front in Hfront.
      destruct offsets; [reflexivity | discriminate]. }
    subst offsets. unfold withOffset0 in Hnil.
    destruct offset0 as [o |]; [exact (insert_nonempty _ _ _ Hnil) |].
    discriminate H.
Qed.

Lemma struct_fields_ordered_relative_witness :
  readObject false 2 lostFieldFn (Argument 0)
  = Ok (Some (StructField 4 (StructField 0 (Object 4) None)
                (Some (StructField 8 (StructField 0 (Object 6) None) None))))
  /\ readObject false 1 lostFieldFn (InstValue 0) = Ok None
  /\ structFieldsInvariant false 1 lostFieldFn (Argument 0)
       (StructField 4 (StructField 0 (Object 4) None)
          (Some (StructField 8 (StructField 0 (Object 6) None) None))).
Proof.
  split; [reflexivity |]. split; [reflexivity |].
  apply (struct_fields_ordered_relative false 1 lostFieldFn (Argument 0)).
  reflexivity.
Defined.

Lemma readStruct_no_synthetic {NDEBUG : bool} readBase offset0 offsets :
  offsets <> [] ->
  Forall (fun p => snd p <> None) offsets ->
  readStruct NDEBUG readBase offset0 offsets
  = readStruct NDEBUG readBase None offsets.
Proof.
  intros Hne Hall. unfold readStruct.
  destruct (StdMap.front offsets) as [front |] eqn:Hfront.
  - destruct (StdMap.back offsets) as [back |] eqn:Hback;
      [| exfalso; exact (back_of_nonempty _ _ Hfront Hback)].
    now rewrite (readFields_no_synthetic readBase front offset0 offsets Hall).
  - unfold StdMap.front in Hfront.
    destruct offsets; [congruence | discriminate Hfront].
Qed.

(** C10: when a base has a direct cast interpretation and also an addition of
    the constant 0, the insertion of the synthetic offset-0 entry leaves the
    map as it is; the entry of offset 0 is the addition, so its field is built
    by the recursion into the addition; and the builder returns what it
    returns with no direct interpretation at all: the scalar of the cast is
    not part of the tree. *)
Theorem explicit_zero_drops_cast (NDEBUG : bool)
        (fuel : nat) (fn : Function) (base : Value) (st : Analysis)
        (c a : nat) :
  analyzeObject fn base emptyAnalysis = (true, st) ->
  castedAs st = Some c ->
  firstOffsetUse base 0 (users fn base) = Some a ->
  withOffset0 (Some (Object c)) (constantOffsets st) = constantOffsets st
  /\ StdMap.find 0 (constantOffsets st) = Some (Some a)
  /\ readChild (readObject NDEBUG fuel fn) (Some (Object c)) (Some a)
     = readObject NDEBUG fuel fn (InstValue a)
  /\ readObject NDEBUG (S fuel) fn base
     = readStruct NDEBUG (readObject NDEBUG fuel fn) None (constantOffsets st).
Proof.
  intros Hrun Hcast Hzero.
  pose proof (analyzeObject_inv fn base) as Hinv. rewrite Hrun in Hinv.
  simpl in Hinv.
  assert (Hfind : StdMap.find 0 (constantOffsets st) = Some (Some a)).
  { now rewrite (analyzeObject_find _ _ _ 0 Hrun), Hzero. }
  assert (Hkeep : withOffset0 (Some (Object c)) (constantOffsets st)
                  = constantOffsets st).
  { simpl. apply StdMapFacts.insert_existing; [exact (inv_sorted _ Hinv) |].
    exact (StdMapFacts.find_Some_In _ _ _ Hfind). }
  repeat split; try assumption.
  rewrite readObject_S, (readObjectBody_analyzed _ _ _ _ Hrun), Hcast.
  cbn [option_map]. rewrite Hkeep.
  apply readStruct_no_synthetic; [| exact (inv_values _ Hinv)].
  intros Hnil. rewrite Hnil in Hfind. discriminate Hfind.
Qed.

Lemma explicit_zero_drops_cast_witness :
  analyzeObject explicitZeroFn (Argument 0) emptyAnalysis
  = (true, mkAnalysis (Some 0%nat) [(0, Some 2%nat)] [])
  /\ readObject false 2 explicitZeroFn (Argument 0)
     = readStruct false (readObject false 1 explicitZeroFn) None [(0, Some 2%nat)]
  /\ readObject false 2 explicitZeroFn (Argument 0)
     = Ok (Some (StructField 0 (StructField 0 (Object 3) None) None)).
Proof.
  split; [reflexivity |]. split; [| reflexivity].
  exact (proj2 (proj2 (proj2
           (explicit_zero_drops_cast false 1 explicitZeroFn (Argument 0)
              (mkAnalysis (Some 0%nat) [(0, Some 2%nat)] []) 0 2
              eq_refl eq_refl eq_refl)))).
Defined.

(** ** The recursion budget *)

Lemma readFields_extends rb1 rb2 front offset0 pairs :
  extends rb1 rb2 ->
  forall x,
    readFields rb1 front offset0 pairs = x -> x <> Abort OutOfFuel ->
    readFields rb2 front offset0 pairs = x.
Proof.
  intros Hext. induction pairs as [| [k v] rest IH]; simpl; intros x Hx Hne;
    [exact Hx |].
  assert (Hchild : forall y, readChild rb1 offset0 v = y ->
                             y <> Abort OutOfFuel ->
                             readChild rb2 offset0 v = y).
  { destruct v as [inst |]; simpl; [apply Hext | trivial]. }
  destruct (readChild rb1 offset0 v) as [[c |] | e] eqn:Hc.
  - rewrite (Hchild _ eq_refl) by discriminate. simpl in *.
    destruct (sub_int64 k front) as [off | e]; simpl in *; [| exact Hx].
    destruct (readFields rb1 front offset0 rest) as [next | e] eqn:Hn.
    + now rewrite (IH _ eq_refl) by discriminate.
    + simpl in Hx. subst x. now rewrite (IH _ eq_refl) by exact Hne.
  - rewrite (Hchild _ eq_refl) by discriminate. simpl in *. now apply IH.
  - simpl in Hx. subst x. now rewrite (Hchild _ eq_refl) by exact Hne.
Qed.

Lemma readObjectBody_extends {NDEBUG : bool} fn rb1 rb2 base :
  extends rb1 rb2 -> 
  forall x,
    readObjectBody NDEBUG fn rb1 base = x -> x <> Abort OutOfFuel ->
    readObjectBody NDEBUG fn rb2 base = x.
Proof.
  intros Hext x. unfold readObjectBody.
  destruct (analyzeObject fn base emptyAnalysis) as [ok st].
  destruct (negb ok); [trivial |].
  destruct (0 <? StdMap.size (variableOffsetStrides st))%nat; [trivial |].
  unfold readStruct.
  destruct (StdMap.front _) as [front |]; [| trivial].
  destruct (StdMap.back _) as [back |]; [| trivial].
  destruct (assert NDEBUG (offsetsAssertion front back)) as [[] | e]; simpl;
    [| trivial].
  now apply readFields_extends.
Qed.

(** A result obtained within some budget is the result within any larger
    budget. *)
Lemma readObject_more_fuel {NDEBUG : bool} fn :
  forall fuel, extends (readObject NDEBUG fuel fn) (readObject NDEBUG (S fuel) fn).
Proof.
  induction fuel as [| fuel IH]; intros base x Hx Hne.
  - simpl in Hx. congruence.
  - rewrite readObject_S in Hx. rewrite readObject_S.
    exact (readObjectBody_extends fn _ _ base IH x Hx Hne).
Qed.

Lemma readObject_fuel_monotone {NDEBUG : bool} fn base r :
  forall extra fuel,
    readObject NDEBUG fuel fn base = Ok r ->
    readObject NDEBUG (extra + fuel) fn base = Ok r.
Proof.
  induction extra as [| extra IH]; intros fuel H; [exact H |].
  change (S extra + fuel)%nat with (S (extra + fuel)).
  apply (readObject_more_fuel fn (extra + fuel) base);
    [now apply IH | discriminate].
Qed.

Lemma Value_eqb_eq a b : Value_eqb a b = true -> a = b.
Proof.
  destruct a, b; simpl; try discriminate; intros H.
  - apply N.eqb_eq in H. now subst.
  - apply Nat.eqb_eq in H. now subst.
  - apply Nat.eqb_eq in H. now subst.
  - apply String.eqb_eq in H. now subst.
Qed.

(** Every entry of a use list is an instruction of the function that has the
    value among its operands. *)
Lemma users_spec v fn :
  forall n j inst,
    In (j, inst) (flat_map (usesOf v) (enumerate n fn)) ->
    exists pos, j = (n + pos)%nat /\ nth_error fn pos = Some inst
                /\ In v (operands inst).
Proof.
  induction fn as [| x rest IH]; simpl; intros n j inst Hin; [destruct Hin |].
  apply in_app_or in Hin. destruct Hin as [Hin | Hin].
  - unfold usesOf in Hin. simpl in Hin.
    destruct (filter (Value_eqb v) (operands x)) as [| w ws] eqn:Hf;
      [destruct Hin |].
    apply repeat_spec in Hin. injection Hin as -> ->.
    exists 0%nat. split; [lia |]. split; [reflexivity |].
    assert (Hw : In w (filter (Value_eqb v) (operands x)))
      by (rewrite Hf; now left).
    apply filter_In in Hw. destruct Hw as [Hw Heq].
    apply Value_eqb_eq in Heq. now subst w.
  - destruct (IH _ _ _ Hin) as (pos & -> & Hnth & Hop).
    exists (S pos). split; [lia |]. split; assumption.
Qed.

Lemma insert_In {V : Type} k (v : V) m p :
  In p (StdMap.insert k v m) -> p = (k, v) \/ In p m.
Proof.
  induction m as [| [k0 v0] rest IH]; simpl.
  - intros [H | []]. now left.
  - destruct (k <? k0); [| destruct (k =? k0)]; simpl.
    + intros [H | H]; [now left | now right].
    + intros H. now right.
    + intros [H | H]; [right; now left |].
      destruct (IH H) as [H' | H']; [now left | right; now right].
Qed.

(** The instructions in the offset map are uses of the base. *)
Lemma analyzeUsers_values base us :
  forall st k j,
    In (k, Some j) (constantOffsets (snd (analyzeUsers base us st))) ->
    In (k, Some j) (constantOffsets st) \/ exists inst, In (j, inst) us.
Proof.
  induction us as [| [id inst] rest IH]; intros st k j Hin; [now left |].
  assert (Hrest : forall st',
             constantOffsets st' = constantOffsets st ->
             In (k, Some j) (constantOffsets (snd (analyzeUsers base rest st'))) ->
             In (k, Some j) (constantOffsets st)
             \/ exists inst', In (j, inst') ((id, inst) :: rest)).
  { intros st' Heq H. destruct (IH _ _ _ H) as [H' | [i' H']].
    - left. now rewrite <- Heq.
    - right. exists i'. now right. }
  destruct inst as [opcode op0 op1 | opcode op | ty p | ty v p | a b | ops];
    simpl in Hin; try (now apply (Hrest st eq_refl)).
  - destruct (negb (isAdd opcode)); [now left |].
    destruct (rightOperand base op0 op1) as [c | | |]; try (now left).
    destruct (IH _ _ _ Hin) as [H' | [i' H']].
    + simpl in H'. destruct (insert_In _ _ _ _ H') as [Heq | H''].
      * injection Heq as _ ->. right. eexists. left. reflexivity.
      * now left.
    + right. exists i'. now right.
  - destruct (isIntToPtr opcode);
      [now apply (Hrest (recordCast id st) eq_refl) | now apply (Hrest st eq_refl)].
Qed.

Lemma readFields_within_budget rb front offset0 pairs :
  (forall k j, In (k, Some j) pairs -> rb (InstValue j) <> Abort OutOfFuel) ->
  readFields rb front offset0 pairs <> Abort OutOfFuel.
Proof.
  induction pairs as [| [k v] rest IH]; simpl; intros Hall; [discriminate |].
  assert (Hrest : readFields rb front offset0 rest <> Abort OutOfFuel).
  { apply IH. intros k' j Hin. apply (Hall k' j). now right. }
  assert (Hchild : readChild rb offset0 v <> Abort OutOfFuel).
  { destruct v as [j |]; simpl; [| discriminate]. apply (Hall k j). now left. }
  destruct (readChild rb offset0 v) as [[c |] | e]; simpl.
  - unfold sub_int64.
    destruct ((INT64_MIN <=? k - front) && (k - front <=? INT64_MAX)); simpl;
      [| discriminate].
    destruct (readFields rb front offset0 rest) as [next | e]; simpl;
      [discriminate | exact Hrest].
  - exact Hrest.
  - exact Hchild.
Qed.

(** In a function whose instructions use only results of earlier
    instructions, the recursion of the builder ends: a budget above
    [fuelBound] is never exhausted. *)
Lemma readObject_within_budget {NDEBUG : bool} fn :
  defBeforeUse fn ->
  forall fuel base,
    (fuelBound fn base < fuel)%nat ->
    readObject NDEBUG fuel fn base <> Abort OutOfFuel.
Proof.
  intros Hssa. induction fuel as [| fuel IH]; intros base Hb; [lia |].
  rewrite readObject_S. unfold readObjectBody.
  destruct (analyzeObject fn base emptyAnalysis) as [ok st] eqn:Hrun.
  destruct (negb ok); [discriminate |].
  destruct (0 <? StdMap.size (variableOffsetStrides st))%nat; [discriminate |].
  unfold readStruct.
  destruct (StdMap.front _) as [front |]; [| discriminate].
  destruct (StdMap.back _) as [back |]; [| discriminate].
  destruct (assert NDEBUG (offsetsAssertion front back)) as [[] | e] eqn:Ha; simpl.
  2:{ unfold assert in Ha. destruct (offsetsAssertion front back);
      [discriminate Ha |].
      destruct NDEBUG; [discriminate Ha | injection Ha as <-; discriminate]. }
  apply readFields_within_budget. intros k j Hin. apply IH.
  assert (Hoff : In (k, Some j) (constantOffsets st)).
  { unfold withOffset0 in Hin. destruct (option_map Object (castedAs st));
      [| exact Hin].
    destruct (insert_In _ _ _ _ Hin) as [Heq | H]; [discriminate Heq | exact H]. }
  pose proof (analyzeUsers_values base (users fn base) emptyAnalysis k j) as Hv.
  unfold analyzeObject in Hrun. rewrite Hrun in Hv.
  destruct (Hv Hoff) as [[] | [inst Huse]].
  destruct (users_spec base fn 0 j inst Huse) as (pos & -> & Hnth & Hop).
  simpl in *.
  assert (Hlen : (pos < List.length fn)%nat)
    by (apply nth_error_Some; congruence).
  destruct base as [c | idx | i | name]; simpl in *; try lia.
  pose proof (Hssa pos inst i Hnth Hop). lia.
Qed.

(** On such a function the builder returns, for every base, within a budget
    of two more than the number of instructions. *)
Lemma readObject_total {NDEBUG : bool} fn base :
  defBeforeUse fn ->
  exists r,
    (forall extra,
        readObject NDEBUG (extra + S (S (List.length fn))) fn base = Ok r)
    \/ (exists e, e <> OutOfFuel
                  /\ readObject NDEBUG (S (S (List.length fn))) fn base = Abort e).
Proof.
  intros Hssa.
  pose proof (@readObject_within_budget NDEBUG fn Hssa
                (S (S (List.length fn))) base) as H.
  destruct (readObject NDEBUG (S (S (List.length fn))) fn base) as [r | e] eqn:Hr.
  - exists r. left. intros extra. now apply readObject_fuel_monotone.
  - exists None. right. exists e. split; [| reflexivity].
    intros ->. apply H; [| reflexivity].
    destruct base; simpl; lia.
Qed.

(** ** Further properties of the type tree and its printer *)

Lemma set_insert_In ty x types :
  In x (set_insert ty types) <-> x = ty \/ In x types.
Proof.
  induction types as [| t0 rest IH]; simpl.
  - split; [intros [H | []]; now left | intros [H | []]; now left].
  - destruct (String.eqb ty t0) eqn:Heq; simpl.
    + apply String.eqb_eq in Heq. subst t0.
      split; [intros H; now right | intros [-> | H]; [now left | exact H]].
    + rewrite IH. split.
      * intros [H | [H | H]]; [right; now left | now left | right; now right].
      * intros [H | [H | H]]; [right; now left | now left | right; now right].
Qed.

Lemma set_insert_NoDup ty types : NoDup types -> NoDup (set_insert ty types).
Proof.
  induction types as [| t0 rest IH]; simpl; intros Hnd.
  - constructor; [intros [] | constructor].
  - destruct (String.eqb ty t0) eqn:Heq; [exact Hnd |].
    apply String.eqb_neq in Heq. inversion Hnd as [| ? ? Hnin Hrest]; subst.
    constructor; [| now apply IH].
    rewrite set_insert_In. intros [H | H]; [congruence | contradiction].
Qed.

Lemma collectTypes_NoDup us :
  forall types, NoDup types -> NoDup (collectTypes us types).
Proof.
  induction us as [| u rest IH]; simpl; intros types Hnd; [exact Hnd |].
  destruct (getLoadStoreType (snd u)); apply IH;
    [now apply set_insert_NoDup | exact Hnd].
Qed.

Lemma collectTypes_In us x :
  forall types,
    In x (collectTypes us types)
    <-> In x types \/ exists u, In u us /\ getLoadStoreType (snd u) = Some x.
Proof.
  induction us as [| u rest IH]; simpl; intros types.
  - split; [now left | intros [H | (u & [] & _)]; exact H].
  - destruct (getLoadStoreType (snd u)) as [ty |] eqn:Hty; rewrite IH.
    + rewrite set_insert_In. split.
      * intros [[-> | H] | (u' & Hin & Hu')].
        -- right. exists u. split; [now left | exact Hty].
        -- now left.
        -- right. exists u'. split; [now right | exact Hu'].
      * intros [H | (u' & [-> | Hin] & Hu')].
        -- left. now right.
        -- left. left. congruence.
        -- right. exists u'. now split.
    + split.
      * intros [H | (u' & Hin & Hu')]; [now left |].
        right. exists u'. split; [now right | exact Hu'].
      * intros [H | (u' & [-> | Hin] & Hu')]; [now left | congruence |].
        right. exists u'. now split.
Qed.

(** X1: the types reported for a cast are exactly the types of the loads
    through it and of the values stored by the stores that use it, each
    listed once. *)
Theorem pointer_cast_types_exact (fn : Function) (inst : nat) :
  NoDup (getPointerCastTypes fn inst [])
  /\ forall T,
      In T (getPointerCastTypes fn inst [])
      <-> exists u, In u (users fn (InstValue inst))
                    /\ getLoadStoreType (snd u) = Some T.
Proof.
  unfold getPointerCastTypes. split.
  - apply collectTypes_NoDup. constructor.
  - intros T. rewrite collectTypes_In. split.
    + intros [[] | H]. exact H.
    + intros H. now right.
Qed.

Lemma print_printable_both NDEBUG fn obj :
  ((exists s, print NDEBUG fn obj = Ok s) <-> printable fn obj = true)
  /\ ((exists s, printFields NDEBUG fn obj = Ok s)
      <-> printableFields fn obj = true).
Proof.
  induction obj as [c | elem count [IH _] | off ty next [IHty _] IHnext]
    using StackObject_induction.
  - split; [| split; [intros [s Hs]; discriminate Hs | discriminate]].
    simpl. destruct (getPointerCastTypes fn c []) as [| T rest]; simpl.
    + split; [| discriminate]. intros [s Hs].
      destruct NDEBUG; discriminate Hs.
    + split; [reflexivity |]. intros _. eexists. reflexivity.
  - split; [| split; [intros [s Hs]; discriminate Hs | discriminate]].
    simpl. rewrite <- IH. split.
    + intros [s Hs]. destruct (print NDEBUG fn elem) as [s' | e];
        [now exists s' | discriminate Hs].
    + intros [s' Hs']. rewrite Hs'. eexists. reflexivity.
  - assert (Hnext :
              (exists r, match next with
                         | None => Ok EmptyString
                         | Some item => printFields NDEBUG fn item
                         end = Ok r)
              <-> match next with
                  | None => true
                  | Some item => printableFields fn item
                  end = true).
    { destruct next as [n |].
      - exact (proj2 (IHnext n eq_refl)).
      - split; [reflexivity | intros _; eexists; reflexivity]. }
    assert (Hboth : forall (k : string -> string -> string),
               (exists s,
                   (s0 <- print NDEBUG fn ty ;;
                    r <- match next with
                         | None => Ok EmptyString
                         | Some item => printFields NDEBUG fn item
                         end ;;
                    Ok (k s0 r)) = Ok s)
               <-> printable fn ty
                   && match next with
                      | None => true
                      | Some item => printableFields fn item
                      end = true).
    { intros k. rewrite andb_true_iff, <- IHty, <- Hnext. split.
      - intros [s Hs]. destruct (print NDEBUG fn ty) as [s0 | e];
          [| discriminate Hs]. simpl in Hs.
        destruct (match next with
                  | None => Ok EmptyString
                  | Some item => printFields NDEBUG fn item
                  end) as [r | e]; [| discriminate Hs].
        split; eexists; reflexivity.
      - intros [[s0 Hs0] [r Hr]]. rewrite Hs0. simpl. rewrite Hr.
        eexists. reflexivity. }
    split.
    + exact (Hboth (fun s0 r =>
                      ("{" ++ string_of_Z off ++ ": " ++ s0 ++ r ++ "}")%string)).
    + exact (Hboth (fun s0 r =>
                      (", " ++ string_of_Z off ++ ": " ++ s0 ++ r)%string)).
Qed.

(** X2: [print] writes a tree, in a build with or without assertions, exactly
    when every scalar of the tree has at least one load or store through its
    cast and every sibling link leads to a struct node; on any other tree it
    stops in the assertion or reads what is not there. *)
Theorem print_succeeds_iff_printable
        (NDEBUG : bool) (fn : Function) (obj : StackObject) :
  (exists s, print NDEBUG fn obj = Ok s) <-> printable fn obj = true.
Proof. exact (proj1 (print_printable_both NDEBUG fn obj)). Qed.

Lemma scalars_simplify_bounded (n : nat) :
  forall obj, (nodes obj <= n)%nat ->
              scalars (simplifyTrivialStructures obj) = scalars obj.
Proof.
  induction n as [| n IH]; intros obj Hn.
  - destruct obj; simpl in Hn; lia.
  - destruct obj as [c | elem count | off ty next]; [reflexivity | |].
    + simpl in *. apply IH. lia.
    + assert (Hnext : match simplifyTrivialStructures_ptr next with
                      | None => []
                      | Some m => scalars m
                      end
                      = match next with None => [] | Some m => scalars m end).
      { destruct next as [m |]; simpl; [| reflexivity].
        apply IH. simpl in Hn. lia. }
      wrapper_cases ty g Hty.
      * rewrite simplify_struct_trivial. simpl. rewrite Hnext.
        rewrite IH by (simpl in Hn; lia). now rewrite app_nil_r.
      * rewrite (simplify_struct_other _ _ _ Hty). simpl. now rewrite Hnext.
Qed.

Lemma fieldOffsets_simplify obj :
  map fst (structFields (simplifyTrivialStructures obj))
  = map fst (structFields obj).
Proof.
  induction obj as [c | elem count _ | off ty next _ IHnext]
    using StackObject_induction; try reflexivity.
  assert (Hshape : exists fieldType,
             simplifyTrivialStructures (StructField off ty next)
             = StructField off fieldType (simplifyTrivialStructures_ptr next)).
  { wrapper_cases ty g Hty.
    - rewrite simplify_struct_trivial. eexists. reflexivity.
    - rewrite (simplify_struct_other _ _ _ Hty). eexists. reflexivity. }
  destruct Hshape as [fieldType ->].
  destruct next as [n |]; simpl; [| reflexivity].
  f_equal. exact (IHnext n eq_refl).
Qed.

(** X3: the normalizer loses nothing but wrappers: the scalars of the tree,
    left to right, are the same after it; the struct at the root keeps its
    fields' offsets, in number and order; and the tree never gains a node. *)
Theorem normalizer_preserves_content (obj : StackObject) :
  scalars (simplifyTrivialStructures obj) = scalars obj
  /\ map fst (structFields (simplifyTrivialStructures obj))
     = map fst (structFields obj)
  /\ (nodes (simplifyTrivialStructures obj) <= nodes obj)%nat.
Proof.
  split; [| split].
  - apply (scalars_simplify_bounded (nodes obj)). lia.
  - apply fieldOffsets_simplify.
  - apply nodes_simplify.
Qed.

(** A run of the normalizer leaves the tree as it is or removes a node. *)
Lemma simplify_same_or_smaller obj :
  simplifyTrivialStructures obj = obj
  \/ (nodes (simplifyTrivialStructures obj) < nodes obj)%nat.
Proof.
  induction obj as [c | elem count IH | off ty next _ IHnext]
    using StackObject_induction.
  - now left.
  - simpl. destruct IH as [-> | Hlt]; [now left | right; lia].
  - assert (Hle : (match simplifyTrivialStructures_ptr next with
                   | None => 0 | Some m => nodes m end
                   <= match next with None => 0 | Some m => nodes m end)%nat).
    { destruct next as [m |]; simpl; [apply nodes_simplify | lia]. }
    wrapper_cases ty g Hty.
    + right. rewrite simplify_struct_trivial.
      pose proof (nodes_simplify g). simpl in *. lia.
    + rewrite (simplify_struct_other _ _ _ Hty).
      destruct next as [m |]; [| now left].
      destruct (IHnext m eq_refl) as [Heq | Hlt].
      * left. simpl. now rewrite Heq.
      * right. simpl in *. lia.
Qed.

Lemma simplify_fixed_within (n : nat) :
  forall obj,
    (nodes obj <= n)%nat ->
    exists passes,
      (passes <= n)%nat
      /\ simplifyTrivialStructures
           (Nat.iter passes simplifyTrivialStructures obj)
         = Nat.iter passes simplifyTrivialStructures obj.
Proof.
  induction n as [| n IH]; intros obj Hn.
  - destruct obj; simpl in Hn; lia.
  - destruct (simplify_same_or_smaller obj) as [Heq | Hlt].
    + exists 0%nat. split; [lia | exact Heq].
    + destruct (IH (simplifyTrivialStructures obj)) as (passes & Hp & Hfix);
        [lia |].
      exists (S passes). split; [lia |].
      rewrite Nat.iter_succ_r. exact Hfix.
Qed.

(** X4: repeating the normalizer reaches a tree that a further run leaves
    unchanged, after no more runs than the tree has nodes. *)
Theorem normalizer_reaches_fixed_point (obj : StackObject) :
  exists passes,
    (passes <= nodes obj)%nat
    /\ simplifyTrivialStructures
         (Nat.iter passes simplifyTrivialStructures obj)
       = Nat.iter passes simplifyTrivialStructures obj.
Proof. apply simplify_fixed_within. lia. Qed.

(** ** Further properties of the builder *)

(** X5: a base none of whose uses is a binary operator or an int-to-pointer
    cast (in particular a base without uses) is unrecoverable. *)
Theorem unrecognized_uses_unrecoverable
        (NDEBUG : bool) (fuel : nat) (fn : Function) (base : Value) :
  filter inspected (users fn base) = [] ->
  readObject NDEBUG (S fuel) fn base = Ok None.
Proof.
  intros Hnone. rewrite readObject_S. unfold readObjectBody, analyzeObject.
  rewrite <- analyzeUsers_inspected, Hnone. reflexivity.
Qed.

Lemma unrecognized_uses_unrecoverable_witness :
  users onlyComparedFn (Argument 0)
  = [(0%nat, ICmpInst (Argument 0) (ConstantInt 0));
     (1%nat, OtherInst [Argument 0; InstValue 0])]
  /\ readObject false 1 onlyComparedFn (Argument 0) = Ok None.
Proof.
  split; [reflexivity |].
  apply (unrecognized_uses_unrecoverable false 0 onlyComparedFn (Argument 0)).
  reflexivity.
Defined.

Lemma analyzeUsers_castedAs_origin base us :
  forall st c,
    castedAs (snd (analyzeUsers base us st)) = Some c ->
    castedAs st = Some c \/ exists op, In (c, CastInst IntToPtr op) us.
Proof.
  induction us as [| [id inst] rest IH]; intros st c Hc; [now left |].
  assert (Hrest : forall st',
             castedAs st' = castedAs st ->
             castedAs (snd (analyzeUsers base rest st')) = Some c ->
             castedAs st = Some c
             \/ exists op, In (c, CastInst IntToPtr op) ((id, inst) :: rest)).
  { intros st' Heq H. destruct (IH _ _ H) as [H' | [op H']].
    - left. now rewrite <- Heq.
    - right. exists op. now right. }
  destruct inst as [opcode op0 op1 | opcode op | ty p | ty v p | a b | ops];
    simpl in Hc; try (now apply (Hrest st eq_refl)).
  - destruct (negb (isAdd opcode)); [now left |].
    destruct (rightOperand base op0 op1) as [k | | |]; try (now left).
    now apply (Hrest (recordOffset (to_int64 (getLimitedValue k)) id st) eq_refl).
  - destruct opcode; try (now apply (Hrest st eq_refl)).
    simpl in Hc. destruct (IH _ _ Hc) as [H' | [op' H']].
    + simpl in H'. injection H' as ->. right. exists op. now left.
    + right. exists op'. now right.
Qed.


Lemma mkStruct_shape fields node :
  mkStruct fields = Some node ->
  (exists off ty next, node = StructField off ty next)
  /\ arrayFree node = forallb (fun f => arrayFree (snd f)) fields
  /\ scalars node = flat_map (fun f => scalars (snd f)) fields.
Proof.
  revert node. induction fields as [| [off ty] rest IH]; simpl; intros node H;
    [discriminate H |].
  injection H as <-. split; [now exists off, ty, (mkStruct rest) |].
  destruct (mkStruct rest) as [n |] eqn:Hn.
  - destruct (IH n eq_refl) as (_ & Ha & Hs). simpl. now rewrite Ha, Hs.
  - destruct rest as [| [o t] r]; [| discriminate Hn].
    simpl. now rewrite andb_true_r.
Qed.

Lemma survivors_origin rb front offset0 pairs f :
  In f (survivors rb front offset0 pairs) ->
  offset0 = Some (snd f) \/ exists v, rb v = Ok (Some (snd f)).
Proof.
  unfold survivors. intros Hin. apply in_flat_map in Hin.
  destruct Hin as ([k v] & _ & Hin). simpl in Hin.
  destruct (readChild rb offset0 v) as [[c |] | e] eqn:Hc;
    try destruct Hin as [<- | []]; try destruct Hin.
  simpl. destruct v as [inst |]; simpl in Hc.
  - right. now exists (InstValue inst).
  - left. now injection Hc as ->.
Qed.

(** What the statement of X6 says of a tree. *)
Lemma readObject_tree_shape NDEBUG fn :
  forall fuel base node,
    readObject NDEBUG fuel fn base = Ok (Some node) ->
    (exists off ty next, node = StructField off ty next)
    /\ arrayFree node = true
    /\ Forall (fun c => exists op, nth_error fn c = Some (CastInst IntToPtr op))
              (scalars node).
Proof.
  induction fuel as [| fuel IH]; intros base node H; [discriminate H |].
  rewrite readObject_S in H.
  destruct (analyzeObject fn base emptyAnalysis) as [ok st] eqn:Hrun.
  destruct ok.
  2:{ rewrite readObjectBody_failed in H by now rewrite Hrun. discriminate H. }
  rewrite (readObjectBody_analyzed _ _ _ _ Hrun) in H.
  assert (Hcast : forall c, castedAs st = Some c ->
                            exists op, nth_error fn c = Some (CastInst IntToPtr op)).
  { intros c Hc.
    pose proof (analyzeUsers_castedAs_origin base (users fn base)
                  emptyAnalysis c) as Ho.
    unfold analyzeObject in Hrun. rewrite Hrun in Ho.
    destruct (Ho Hc) as [Hempty | [op Hin]]; [discriminate Hempty |].
    destruct (users_spec base fn 0 c _ Hin) as (pos & -> & Hnth & _).
    now exists op. }
  unfold readStruct in H.
  destruct (StdMap.front _) as [front |] eqn:Hfront.
  - destruct (StdMap.back _) as [back |] eqn:Hback;
      [| exfalso; exact (back_of_nonempty _ _ Hfront Hback)].
    destruct (assert NDEBUG (offsetsAssertion front back)) as [[] | e];
      simpl in H; [| discriminate H].
    destruct (readFields_Ok _ _ _ _ _ H) as [Hnode _].
    symmetry in Hnode. destruct (mkStruct_shape _ _ Hnode) as (Hs & Ha & Hsc).
    split; [exact Hs |].
    assert (Hgood : forall f,
               In f (survivors (readObject NDEBUG fuel fn) front
                       (option_map Object (castedAs st))
                       (withOffset0 (option_map Object (castedAs st))
                          (constantOffsets st))) ->
               arrayFree (snd f) = true
               /\ Forall (fun c => exists op,
                              nth_error fn c = Some (CastInst IntToPtr op))
                         (scalars (snd f))).
    { intros f Hin. destruct (survivors_origin _ _ _ _ _ Hin) as [Ho | [v Hv]].
      - destruct (castedAs st) as [c |] eqn:Hc; [| discriminate Ho].
        simpl in Ho. injection Ho as Ho. rewrite <- Ho. simpl.
        split; [reflexivity |]. constructor; [now apply Hcast | constructor].
      - destruct (IH _ _ Hv) as (_ & Hfree & Hall). now split. }
    split.
    + rewrite Ha. apply forallb_forall. intros f Hin. now apply Hgood.
    + rewrite Hsc. apply Forall_forall. intros c Hin.
      apply in_flat_map in Hin. destruct Hin as (f & Hf & Hc).
      exact (proj1 (Forall_forall _ _) (proj2 (Hgood f Hf)) c Hc).
  - exfalso. unfold StdMap.front in Hfront.
    destruct (withOffset0 _ _) as [| p l] eqn:Hw; [| discriminate Hfront].
    destruct (castedAs st) as [c |]; simpl in *;
      [exact (insert_nonempty _ _ _ Hw) | discriminate H].
Qed.

(** X6: whatever the builder returns is a struct: never a bare scalar, and
    no node of the tree is an array; and every scalar of the tree is an
    int-to-pointer cast instruction of the function. *)
Theorem builder_returns_structs_of_casts
        (NDEBUG : bool) (fuel : nat) (fn : Function) (base : Value)
        (node : StackObject) :
  readObject NDEBUG fuel fn base = Ok (Some node) ->
  (exists off ty next, node = StructField off ty next)
  /\ arrayFree node = true
  /\ Forall (fun c => exists op, nth_error fn c = Some (CastInst IntToPtr op))
            (scalars node).
Proof. apply readObject_tree_shape. Qed.

Lemma builder_returns_structs_of_casts_witness :
  readObject false 2 lostFieldFn (Argument 0)
  = Ok (Some (StructField 4 (StructField 0 (Object 4) None)
                (Some (StructField 8 (StructField 0 (Object 6) None) None))))
  /\ Forall (fun c => exists op,
                 nth_error lostFieldFn c = Some (CastInst IntToPtr op))
            [4%nat; 6%nat].
Proof.
  split; [reflexivity |].
  exact (proj2 (proj2 (builder_returns_structs_of_casts false 2 lostFieldFn
                         (Argument 0) _ eq_refl))).
Defined.














Lemma readObject_any_more_fuel {NDEBUG : bool} fn base x :
  x <> Abort OutOfFuel ->
  forall extra fuel,
    readObject NDEBUG fuel fn base = x ->
    readObject NDEBUG (extra + fuel) fn base = x.
Proof.
  intros Hne. induction extra as [| extra IH]; intros fuel H; [exact H |].
  change (S extra + fuel)%nat with (S (extra + fuel)).
  apply (readObject_more_fuel fn (extra + fuel) base); [now apply IH | exact Hne].
Qed.

Lemma defBeforeUse_twoFieldsFn : defBeforeUse twoFieldsFn.
Proof.
  intros i inst j Hnth Hin.
  do 6 (destruct i as [| i];
        [injection Hnth as <-; simpl in Hin;
         repeat (destruct Hin as [Hin | Hin]; [try discriminate Hin |]);
         try (injection Hin as <-; lia); try contradiction |]).
  destruct i; discriminate Hnth.
Qed.

(** X10: on a function whose instructions use only results of earlier
    instructions the recursion of the builder ends: a depth of the number of
    instructions plus two is never exhausted, and nothing changes with a
    larger depth. *)
Theorem builder_terminates
        (NDEBUG : bool) (fn : Function) (base : Value) (extra : nat) :
  defBeforeUse fn ->
  readObject NDEBUG (S (S (List.length fn))) fn base <> Abort OutOfFuel
  /\ readObject NDEBUG (extra + S (S (List.length fn))) fn base
     = readObject NDEBUG (S (S (List.length fn))) fn base.
Proof.
  intros Hssa.
  assert (Hne : readObject NDEBUG (S (S (List.length fn))) fn base
                <> Abort OutOfFuel).
  { apply (@readObject_within_budget NDEBUG fn Hssa).
    destruct base; simpl; lia. }
  split; [exact Hne |].
  now apply readObject_any_more_fuel.
Qed.

Lemma builder_terminates_witness :
  defBeforeUse twoFieldsFn
  /\ readObject false 8 twoFieldsFn (Argument 0) <> Abort OutOfFuel
  /\ readObject false (5 + 8) twoFieldsFn (Argument 0)
     = readObject false 8 twoFieldsFn (Argument 0).
Proof.
  split; [exact defBeforeUse_twoFieldsFn |].
  exact (builder_terminates false twoFieldsFn (Argument 0) 5
           defBeforeUse_twoFieldsFn).
Defined.

(** X11: the offset a constant operand is recorded under: the constant itself
    below 2^63; the constant less 2^64, a negative offset, from 2^63 up to
    2^64 - 1; and -1 for every constant that does not fit 64 bits. *)
Theorem offset_of_constant (c : N) :
  to_int64 (getLimitedValue c)
  = if (c <? 2 ^ 63)%N then Z.of_N c
    else if (c <? 2 ^ 64)%N then Z.of_N c - 2 ^ 64
    else -1.
Proof.
  unfold to_int64, getLimitedValue. cbv zeta.
  assert (H64 : Z.of_N (2 ^ 64 - 1) = 2 ^ 64 - 1) by reflexivity.
  destruct (c <? 2 ^ 63)%N eqn:H63; [| destruct (c <? 2 ^ 64)%N eqn:Hc].
  - apply N.ltb_lt in H63.
    rewrite N.min_l by lia. rewrite Z.mod_small by lia.
    destruct (Z.of_N c <? 2 ^ 63) eqn:Hlt; [reflexivity |].
    apply Z.ltb_ge in Hlt. lia.
  - apply N.ltb_ge in H63. apply N.ltb_lt in Hc.
    rewrite N.min_l by lia. rewrite Z.mod_small by lia.
    destruct (Z.of_N c <? 2 ^ 63) eqn:Hlt; [| reflexivity].
    apply Z.ltb_lt in Hlt. lia.
  - apply N.ltb_ge in Hc. rewrite N.min_r by lia. rewrite H64. reflexivity.
Qed.

(** * Properties of the executable front end *)

(** ** Case-insensitive character traits *)

(** X12: comparing in the other order negates the result, and both orders
    read past the end of a string, or neither does. *)
Theorem ci_compare_antisymmetric
        (char_signed : bool) (s1 s2 : list ascii) (n : nat) :
  ci_char_traits.compare char_signed s2 s1 n
  = (r <- ci_char_traits.compare char_signed s1 s2 n ;; Ok (- r)).
Proof.
  revert s1 s2. induction n as [| n IH]; intros s1 s2; [reflexivity |].
  destruct s1 as [| c1 r1], s2 as [| c2 r2]; try reflexivity.
  simpl. rewrite !Z.gtb_ltb.
  destruct (ci_char_traits.upper char_signed c1
            <? ci_char_traits.upper char_signed c2) eqn:H12;
    destruct (ci_char_traits.upper char_signed c2
              <? ci_char_traits.upper char_signed c1) eqn:H21;
    try reflexivity.
  - apply Z.ltb_lt in H12. apply Z.ltb_lt in H21. lia.
  - apply IH.
Qed.

Lemma ci_compare_zero (char_signed : bool) :
  forall n s1 s2,
    ci_char_traits.compare char_signed s1 s2 n = Ok 0
    <-> (n <= List.length s1)%nat /\ (n <= List.length s2)%nat
        /\ upperString char_signed (firstn n s1)
           = upperString char_signed (firstn n s2).
Proof.
  induction n as [| n IH]; intros s1 s2.
  - simpl. split; [intros _; repeat split; lia | reflexivity].
  - destruct s1 as [| c1 r1], s2 as [| c2 r2]; simpl;
      try (split; [discriminate | intros (H1 & H2 & _); simpl in *; lia]).
    rewrite Z.gtb_ltb.
    destruct (ci_char_traits.upper char_signed c1
              <? ci_char_traits.upper char_signed c2) eqn:H12.
    { apply Z.ltb_lt in H12. split; [discriminate |].
      intros (_ & _ & Heq). injection Heq as Heq _. lia. }
    destruct (ci_char_traits.upper char_signed c2
              <? ci_char_traits.upper char_signed c1) eqn:H21.
    { apply Z.ltb_lt in H21. split; [discriminate |].
      intros (_ & _ & Heq). injection Heq as Heq _. lia. }
    apply Z.ltb_ge in H12. apply Z.ltb_ge in H21.
    rewrite IH. split.
    + intros (H1 & H2 & Heq). repeat split; try lia.
      unfold upperString in *. simpl. f_equal; [lia | exact Heq].
    + intros (H1 & H2 & Heq). repeat split; try lia.
      unfold upperString in *. simpl in Heq. now injection Heq.
Qed.

(** X13: [compare] answers 0 exactly when both strings have the [n]
    characters and these agree once upper-cased; the case of a letter never
    matters. *)
Theorem ci_compare_equal_iff
        (char_signed : bool) (s1 s2 : list ascii) (n : nat) :
  ci_char_traits.compare char_signed s1 s2 n = Ok 0
  <-> (n <= List.length s1)%nat /\ (n <= List.length s2)%nat
      /\ upperString char_signed (firstn n s1)
         = upperString char_signed (firstn n s2).
Proof. apply ci_compare_zero. Qed.

Lemma ci_find_loop_spec (char_signed : bool) (a : ascii) :
  forall n s,
    (n <= List.length s)%nat ->
    exists i,
      ci_char_traits.find_loop char_signed s n a = Ok i
      /\ (i <= n)%nat
      /\ Forall (fun c => ci_char_traits.eq char_signed c a = false)
                (firstn i s)
      /\ ((i < n)%nat ->
          exists c, nth_error s i = Some c
                    /\ ci_char_traits.eq char_signed c a = true).
Proof.
  induction n as [| n IH]; intros s Hlen.
  - exists 0%nat. simpl. repeat split; [lia | constructor | lia].
  - destruct s as [| c r]; [simpl in Hlen; lia |].
    simpl. destruct (ci_char_traits.eq char_signed c a) eqn:Hc.
    + exists 0%nat. repeat split; [lia | constructor |].
      intros _. exists c. now split.
    + destruct (IH r) as (i & Hi & Hle & Hall & Hhit);
        [simpl in Hlen; lia |].
      exists (S i). rewrite Hi. simpl. repeat split; [lia | |].
      * now constructor.
      * intros Hlt. apply Hhit. lia.
Qed.

(** X14: [find] returns a pointer into the string or its end, never a null
    pointer: it stops at the first of the [n] characters that equals [a]
    without regard to case, and when there is none, or [n] is not positive,
    the result is the pointer moved by the whole count. *)
Theorem ci_find_first_match
        (char_signed : bool) (s : list ascii) (n : Z) (a : ascii) :
  (Z.to_nat n <= List.length s)%nat ->
  exists i,
    ci_char_traits.find char_signed s n a = Ok i
    /\ (i <= Z.to_nat n)%nat
    /\ Forall (fun c => ci_char_traits.eq char_signed c a = false) (firstn i s)
    /\ ((i < Z.to_nat n)%nat ->
        exists c, nth_error s i = Some c
                  /\ ci_char_traits.eq char_signed c a = true).
Proof. apply ci_find_loop_spec. Qed.

Lemma ci_find_first_match_witness :
  (Z.to_nat 5 <= List.length (list_ascii_of_string "a.PY!"))%nat
  /\ ci_char_traits.find true (list_ascii_of_string "a.PY!") 5 "p"%char = Ok 2%nat
  /\ ci_char_traits.find true (list_ascii_of_string "a.PY!") 5 "z"%char = Ok 5%nat
  /\ exists i,
      ci_char_traits.find true (list_ascii_of_string "a.PY!") 5 "p"%char = Ok i
      /\ (i <= Z.to_nat 5)%nat
      /\ Forall (fun c => ci_char_traits.eq true c "p"%char = false)
                (firstn i (list_ascii_of_string "a.PY!"))
      /\ ((i < Z.to_nat 5)%nat ->
          exists c, nth_error (list_ascii_of_string "a.PY!") i = Some c
                    /\ ci_char_traits.eq true c "p"%char = true).
Proof.
  split; [simpl; lia |]. split; [reflexivity |]. split; [reflexivity |].
  apply (ci_find_first_match true (list_ascii_of_string "a.PY!") 5 "p"%char).
  simpl. lia.
Defined.

(** ** Format detection *)

Lemma memcmp_spec :
  forall n a b,
    (n <= List.length a)%nat -> (n <= List.length b)%nat ->
    exists r, AutoExecutableFactory.memcmp a b n = Ok r
              /\ (r = 0 <-> firstn n a = firstn n b).
Proof.
  induction n as [| n IH]; intros a b Ha Hb.
  - exists 0. split; [reflexivity | split; reflexivity].
  - destruct a as [| x a']; [simpl in Ha; lia |].
    destruct b as [| y b']; [simpl in Hb; lia |].
    simpl. destruct (x =? y)%N eqn:Hxy.
    + apply N.eqb_eq in Hxy. subst y.
      destruct (IH a' b') as (r & Hr & Hiff); [simpl in *; lia .. |].
      exists r. split; [exact Hr |]. rewrite Hiff. split.
      * intros ->. reflexivity.
      * intros H. now injection H.
    + apply N.eqb_neq in Hxy. eexists. split; [reflexivity |]. split.
      * intros H. exfalso. apply Hxy. lia.
      * intros H. injection H as H _. contradiction.
Qed.

(** X15: the autodetecting factory hands the bytes, unchanged, to the ELF
    factory exactly when they begin with 0x7f 'E' 'L' 'F'; every other
    input, and so every input shorter than four bytes, the empty one
    included, is refused with [Generic_UnknownFormat]. *)
Theorem auto_parse_magic
        (Executable : Type) (ElfExecutableFactory_parse : list N -> Executable)
        (bytes : list N) :
  AutoExecutableFactory.parse ElfExecutableFactory_parse bytes
  = Ok (if list_eq_dec N.eq_dec (firstn 4 bytes)
                       AutoExecutableFactory.elf_magic
        then inr (ElfExecutableFactory_parse bytes)
        else inl AutoExecutableFactory.Generic_UnknownFormat).
Proof.
  unfold AutoExecutableFactory.parse.
  change (List.length AutoExecutableFactory.elf_magic) with 4%nat.
  destruct (4 <=? List.length bytes)%nat eqn:Hlen.
  - apply Nat.leb_le in Hlen.
    destruct (memcmp_spec 4 bytes AutoExecutableFactory.elf_magic Hlen)
      as (r & Hr & Hiff); [simpl; lia |].
    rewrite Hr. simpl bind.
    change (firstn 4 AutoExecutableFactory.elf_magic)
      with AutoExecutableFactory.elf_magic in Hiff.
    destruct (list_eq_dec N.eq_dec (firstn 4 bytes)
                AutoExecutableFactory.elf_magic) as [Heq | Hne].
    + apply Hiff in Heq. subst r. reflexivity.
    + destruct (r =? 0) eqn:Hz; [| reflexivity].
      apply Z.eqb_eq in Hz. apply Hiff in Hz. contradiction.
  - apply Nat.leb_gt in Hlen.
    destruct (list_eq_dec N.eq_dec (firstn 4 bytes)
                AutoExecutableFactory.elf_magic) as [Heq | Hne];
      [| reflexivity].
    exfalso. apply (f_equal (@List.length N)) in Heq.
    rewrite length_firstn in Heq.
    change (List.length AutoExecutableFactory.elf_magic) with 4%nat in Heq.
    lia.
Qed.

(** ** The [--format] option *)

Lemma ci_compare_total (char_signed : bool) :
  forall n s1 s2,
    (n <= List.length s1)%nat -> (n <= List.length s2)%nat ->
    exists r, ci_char_traits.compare char_signed s1 s2 n = Ok r.
Proof.
  induction n as [| n IH]; intros s1 s2 H1 H2; [now exists 0 |].
  destruct s1 as [| c1 r1]; [simpl in H1; lia |].
  destruct s2 as [| c2 r2]; [simpl in H2; lia |].
  simpl.
  destruct (_ <? _); [now eexists |]. destruct (_ >? _); [now eexists |].
  apply IH; simpl in *; lia.
Qed.

(** The equality of a [ci_string] and a C string is the equality of their
    upper-cased characters. *)
Lemma ci_equal_spec (char_signed : bool) (s t : list ascii) :
  exists b,
    ExecutableFactoryParser.ci_equal char_signed s t = Ok b
    /\ (b = true <-> upperString char_signed s = upperString char_signed t).
Proof.
  unfold ExecutableFactoryParser.ci_equal.
  set (m := Nat.min (List.length s) (List.length t)).
  destruct (ci_compare_total char_signed m s t) as [r Hr]; [lia .. |].
  rewrite Hr. simpl. eexists. split; [reflexivity |].
  rewrite andb_true_iff, Z.eqb_eq, Nat.eqb_eq.
  pose proof (ci_compare_zero char_signed m s t) as Hz. rewrite Hr in Hz.
  split.
  - intros [Hzero Hlen]. subst r.
    destruct (proj1 Hz eq_refl) as (_ & _ & Heq).
    assert (Hm : m = List.length s) by lia.
    rewrite Hm, firstn_all in Heq. rewrite Hlen, firstn_all in Heq.
    exact Heq.
  - intros Heq.
    assert (Hlen : List.length s = List.length t).
    { apply (f_equal (@List.length Z)) in Heq. unfold upperString in Heq.
      now rewrite !length_map in Heq. }
    split; [| exact Hlen].
    assert (Hr0 : Ok r = Ok 0 :> result Z).
    { apply Hz. repeat split; try lia.
      assert (Hm : m = List.length s) by lia.
      rewrite Hm, firstn_all. rewrite Hlen, firstn_all. exact Heq. }
    now injection Hr0.
Qed.

Lemma lookup_no_match (char_signed : bool) (ciArgVal : list ascii) infos :
  (forall i, In i infos ->
             upperString char_signed ciArgVal
             <> upperString char_signed
                  (list_ascii_of_string (ExecutableFactoryParser.Name i))) ->
  ExecutableFactoryParser.lookup char_signed ciArgVal infos = Ok None.
Proof.
  induction infos as [| info rest IH]; intros Hnone; [reflexivity |].
  simpl.
  destruct (ci_equal_spec char_signed ciArgVal
              (list_ascii_of_string (ExecutableFactoryParser.Name info)))
    as (b & -> & Hb).
  simpl. destruct b.
  - exfalso. apply (Hnone info); [now left | now apply Hb].
  - apply IH. intros i Hi. apply Hnone. now right.
Qed.

Lemma lookup_first_match (char_signed : bool) (ciArgVal : list ascii)
      infos1 info infos2 :
  (forall i, In i infos1 ->
             upperString char_signed ciArgVal
             <> upperString char_signed
                  (list_ascii_of_string (ExecutableFactoryParser.Name i))) ->
  upperString char_signed ciArgVal
  = upperString char_signed
      (list_ascii_of_string (ExecutableFactoryParser.Name info)) ->
  ExecutableFactoryParser.lookup char_signed ciArgVal
    (infos1 ++ info :: infos2)
  = Ok (Some (ExecutableFactoryParser.factory info)).
Proof.
  intros Hnone Hmatch. induction infos1 as [| i0 rest IH]; simpl.
  - destruct (ci_equal_spec char_signed ciArgVal
                (list_ascii_of_string (ExecutableFactoryParser.Name info)))
      as (b & -> & Hb).
    simpl. destruct b; [reflexivity |].
    apply Hb in Hmatch. discriminate Hmatch.
  - destruct (ci_equal_spec char_signed ciArgVal
                (list_ascii_of_string (ExecutableFactoryParser.Name i0)))
      as (b & -> & Hb).
    simpl. destruct b.
    + exfalso. apply (Hnone i0); [now left | now apply Hb].
    + apply IH. intros i Hi. apply Hnone. now right.
Qed.

(** X16: the option value names a format without regard to case: the first
    entry of the table whose name equals the value once both are upper-cased
    is selected, and the script path is left alone, also when the value ends
    in [.py]. *)
Theorem parse_selects_named_factory
        (char_signed : bool)
        (infos1 infos2 : list ExecutableFactoryParser.OptionInfo)
        (info : ExecutableFactoryParser.OptionInfo)
        (hasArgStr : bool) (argName arg : string) :
  let argVal := if hasArgStr then arg else argName in
  (forall i, In i infos1 ->
             upperString char_signed (list_ascii_of_string argVal)
             <> upperString char_signed
                  (list_ascii_of_string (ExecutableFactoryParser.Name i))) ->
  upperString char_signed (list_ascii_of_string argVal)
  = upperString char_signed
      (list_ascii_of_string (ExecutableFactoryParser.Name info)) ->
  ExecutableFactoryParser.parse char_signed (infos1 ++ info :: infos2)
    hasArgStr argName arg
  = Ok (ExecutableFactoryParser.Selected
          (ExecutableFactoryParser.factory info) None).
Proof.
  intros argVal Hnone Hmatch. unfold ExecutableFactoryParser.parse.
  cbv zeta. fold argVal.
  now rewrite (lookup_first_match char_signed _ infos1 info infos2 Hnone Hmatch).
Qed.

Lemma parse_selects_named_factory_witness :
  sampleFactories
  = [] ++ ExecutableFactoryParser.mkOptionInfo "auto" "autodetect"
            ExecutableFactoryParser.autoFactory
       :: tl sampleFactories
  /\ ExecutableFactoryParser.parse true sampleFactories true "format" "AuTo"
     = Ok (ExecutableFactoryParser.Selected
             ExecutableFactoryParser.autoFactory None).
Proof.
  split; [reflexivity |].
  refine (parse_selects_named_factory true [] (tl sampleFactories)
            (ExecutableFactoryParser.mkOptionInfo "auto" "autodetect"
               ExecutableFactoryParser.autoFactory)
            true "format" "AuTo" _ eq_refl).
  intros i [].
Defined.

(** X17: a value that names no entry of the table, is longer than three
    characters and ends in [.py], in any case, selects the Python factory,
    and the value as it was written becomes the script path. *)
Theorem parse_selects_python_script
        (char_signed : bool) (infos : list ExecutableFactoryParser.OptionInfo)
        (hasArgStr : bool) (argName arg : string) :
  let argVal := if hasArgStr then arg else argName in
  let ciArgVal := list_ascii_of_string argVal in
  (forall i, In i infos ->
             upperString char_signed ciArgVal
             <> upperString char_signed
                  (list_ascii_of_string (ExecutableFactoryParser.Name i))) ->
  (3 < List.length ciArgVal)%nat ->
  upperString char_signed
    (firstn 3 (skipn (List.length ciArgVal - 3) ciArgVal))
  = upperString char_signed (list_ascii_of_string ".py") ->
  ExecutableFactoryParser.parse char_signed infos hasArgStr argName arg
  = Ok (ExecutableFactoryParser.Selected
          ExecutableFactoryParser.pythonScriptExecutableFactory (Some argVal)).
Proof.
  intros argVal ciArgVal Hnone Hlen Hpy. unfold ExecutableFactoryParser.parse.
  cbv zeta. fold argVal. fold ciArgVal.
  rewrite (lookup_no_match char_signed ciArgVal infos Hnone). cbn [bind].
  apply Nat.ltb_lt in Hlen. rewrite Hlen.
  destruct (ci_equal_spec char_signed
              (firstn 3 (skipn (List.length ciArgVal - 3) ciArgVal))
              (list_ascii_of_string ".py")) as (b & -> & Hb).
  simpl. apply Hb in Hpy. now rewrite Hpy.
Qed.

Lemma parse_selects_python_script_witness :
  ExecutableFactoryParser.parse true sampleFactories false "Loader.PY" "unused"
  = Ok (ExecutableFactoryParser.Selected
          ExecutableFactoryParser.pythonScriptExecutableFactory
          (Some "Loader.PY"%string)).
Proof.
  apply (parse_selects_python_script true sampleFactories false
           "Loader.PY" "unused").
  - intros i Hi. simpl in Hi.
    destruct Hi as [<- | [<- | [<- | [<- | []]]]]; vm_compute; discriminate.
  - simpl. lia.
  - reflexivity.
Defined.

(** X18: a value that names no entry of the table and is not a longer string
    ending in [.py] is an error, reported with the value quoted; the bare
    [.py] is such a value. *)
Theorem parse_rejects_unknown
        (char_signed : bool) (infos : list ExecutableFactoryParser.OptionInfo)
        (hasArgStr : bool) (argName arg : string) :
  let argVal := if hasArgStr then arg else argName in
  let ciArgVal := list_ascii_of_string argVal in
  (forall i, In i infos ->
             upperString char_signed ciArgVal
             <> upperString char_signed
                  (list_ascii_of_string (ExecutableFactoryParser.Name i))) ->
  (List.length ciArgVal <= 3)%nat
  \/ upperString char_signed
       (firstn 3 (skipn (List.length ciArgVal - 3) ciArgVal))
     <> upperString char_signed (list_ascii_of_string ".py") ->
  ExecutableFactoryParser.parse char_signed infos hasArgStr argName arg
  = Ok (ExecutableFactoryParser.OptionError
          ("Cannot find option named '" ++ argVal ++ "'!")%string).
Proof.
  intros argVal ciArgVal Hnone Hnot. unfold ExecutableFactoryParser.parse.
  cbv zeta. fold argVal. fold ciArgVal.
  rewrite (lookup_no_match char_signed ciArgVal infos Hnone). cbn [bind].
  destruct (3 <? List.length ciArgVal)%nat eqn:Hlen; [| reflexivity].
  apply Nat.ltb_lt in Hlen.
  destruct Hnot as [Hshort | Hpy]; [lia |].
  destruct (ci_equal_spec char_signed
              (firstn 3 (skipn (List.length ciArgVal - 3) ciArgVal))
              (list_ascii_of_string ".py")) as (b & -> & Hb).
  simpl. destruct b; [| reflexivity].
  exfalso. apply Hpy. now apply Hb.
Qed.

Lemma parse_rejects_unknown_witness :
  ExecutableFactoryParser.parse true sampleFactories true "format" ".py"
  = Ok (ExecutableFactoryParser.OptionError
          "Cannot find option named '.py'!"%string).
Proof.
  apply (parse_rejects_unknown true sampleFactories true "format" ".py").
  - intros i Hi. simpl in Hi.
    destruct Hi as [<- | [<- | [<- | [<- | []]]]]; vm_compute; discriminate.
  - left. simpl. lia.
Defined.

(** ** The symbol and stub caches *)

Lemma lookup_assign_same {V : Type} k (v : V) m :
  Executable.lookup k (Executable.assign k v m) = Some v.
Proof.
  induction m as [| [k' v'] rest IH]; simpl.
  - now rewrite N.eqb_refl.
  - destruct (k =? k')%N eqn:Heq; simpl.
    + now rewrite N.eqb_refl.
    + now rewrite Heq.
Qed.

Lemma lookup_assign_other {V : Type} k k0 (v : V) m :
  k0 <> k ->
  Executable.lookup k0 (Executable.assign k v m) = Executable.lookup k0 m.
Proof.
  intros Hne. induction m as [| [k' v'] rest IH]; simpl.
  - now replace (k0 =? k)%N with false by (symmetry; now apply N.eqb_neq).
  - destruct (k =? k')%N eqn:Heq; simpl.
    + apply N.eqb_eq in Heq. subst k'.
      now replace (k0 =? k)%N with false by (symmetry; now apply N.eqb_neq).
    + destruct (k0 =? k')%N; [reflexivity | exact IH].
Qed.

Lemma assign_absent {V : Type} k (v : V) m :
  Executable.lookup k m = None -> Executable.assign k v m = m ++ [(k, v)].
Proof.
  induction m as [| [k' v'] rest IH]; simpl; [reflexivity |].
  destruct (k =? k')%N; [discriminate |]. intros H. now rewrite IH.
Qed.

(** X19: [getInfo] remembers what it found: once it has answered for an
    address, the same answer comes back without [map] being consulted, so
    also when the address has stopped being mapped, and the table no longer
    changes. *)
Theorem getInfo_cached
        (map map' : N -> option nat) (symbols symbols' : Executable.Symbols)
        (address : N) (info : Executable.SymbolInfo) :
  Executable.getInfo map symbols address = (Some info, symbols') ->
  Executable.getInfo map' symbols' address = (Some info, symbols').
Proof.
  unfold Executable.getInfo. intros H.
  destruct (Executable.lookup address symbols) as [known |] eqn:Hknown.
  - injection H as <- <-. now rewrite Hknown.
  - destruct (map address) as [memory |]; [| discriminate H].
    injection H as <- <-. now rewrite lookup_assign_same.
Qed.

Lemma getInfo_cached_witness :
  Executable.getInfo sampleMap sampleSymbols 100
  = (Some (Executable.mkSymbolInfo 100 100),
     sampleSymbols ++ [(100%N, Executable.mkSymbolInfo 100 100)])
  /\ Executable.getInfo (fun _ => None)
       (sampleSymbols ++ [(100%N, Executable.mkSymbolInfo 100 100)]) 100
     = (Some (Executable.mkSymbolInfo 100 100),
        sampleSymbols ++ [(100%N, Executable.mkSymbolInfo 100 100)]).
Proof.
  split; [reflexivity |].
  apply (getInfo_cached sampleMap (fun _ => None) sampleSymbols).
  reflexivity.
Defined.

(** X20: [getInfo] never changes or removes a known symbol: every address
    but the queried one keeps its entry or its absence, a known entry of the
    queried address stays as it is, and a query that finds nothing (the
    address is neither known nor mapped) leaves the table untouched. *)
Theorem getInfo_keeps_symbols
        (map : N -> option nat) (symbols symbols' : Executable.Symbols)
        (address : N) (r : option Executable.SymbolInfo) :
  Executable.getInfo map symbols address = (r, symbols') ->
  (forall other, other <> address ->
                 Executable.lookup other symbols'
                 = Executable.lookup other symbols)
  /\ (forall info, Executable.lookup address symbols = Some info ->
                   Executable.lookup address symbols' = Some info
                   /\ r = Some info)
  /\ (r = None -> symbols' = symbols /\ map address = None).
Proof.
  unfold Executable.getInfo. intros H.
  destruct (Executable.lookup address symbols) as [known |] eqn:Hknown.
  - injection H as <- <-. split; [| split].
    + reflexivity.
    + intros info Hi. split; congruence.
    + discriminate.
  - destruct (map address) as [memory |] eqn:Hmap; injection H as <- <-.
    + split; [| split].
      * intros other Hne. now apply lookup_assign_other.
      * discriminate.
      * discriminate.
    + split; [| split].
      * reflexivity.
      * discriminate.
      * intros _. now split.
Qed.

Lemma getInfo_keeps_symbols_witness :
  Executable.getInfo sampleMap sampleSymbols 8192 = (None, sampleSymbols)
  /\ Executable.lookup 4096 sampleSymbols
     = Some (Executable.mkSymbolInfo 4096 64)
  /\ sampleMap 8192 = None.
Proof.
  split; [reflexivity |]. split; [reflexivity |].
  exact (proj2 (proj2 (proj2 (getInfo_keeps_symbols sampleMap sampleSymbols
                                sampleSymbols 8192 None eq_refl))
                      eq_refl)).
Defined.

(** X21: asking for the symbol of an address that is mapped but not yet
    known makes that address a visible entry point: it is listed from then
    on, next to every address listed before. *)
Theorem getInfo_adds_entry_point
        (map : N -> option nat) (symbols : Executable.Symbols)
        (address : N) (memory : nat) :
  Executable.lookup address symbols = None ->
  map address = Some memory ->
  let symbols' := snd (Executable.getInfo map symbols address) in
  fst (Executable.getInfo map symbols address)
  = Some (Executable.mkSymbolInfo address memory)
  /\ In address (Executable.getVisibleEntryPoints symbols')
  /\ (forall a, In a (Executable.getVisibleEntryPoints symbols) ->
                In a (Executable.getVisibleEntryPoints symbols'))
  /\ List.length (Executable.getVisibleEntryPoints symbols')
     = S (List.length (Executable.getVisibleEntryPoints symbols)).
Proof.
  intros Hnew Hmap. unfold Executable.getInfo. rewrite Hnew, Hmap.
  cbn [fst snd]. rewrite (assign_absent _ _ _ Hnew).
  unfold Executable.getVisibleEntryPoints. rewrite map_app. simpl.
  repeat split.
  - apply in_or_app. right. now left.
  - intros a Ha. apply in_or_app. now left.
  - rewrite length_app. simpl. lia.
Qed.

Lemma getInfo_adds_entry_point_witness :
  Executable.getVisibleEntryPoints sampleSymbols = [4096%N]
  /\ In 100%N (Executable.getVisibleEntryPoints
                 (snd (Executable.getInfo sampleMap sampleSymbols 100))).
Proof.
  split; [reflexivity |].
  exact (proj1 (proj2 (getInfo_adds_entry_point sampleMap sampleSymbols 100 100
                         eq_refl eq_refl))).
Defined.

(** X22: [getStubTarget] remembers resolved stubs only: a stub it has
    returned comes back for the same address without [doGetStubTarget] being
    asked, while an unresolved address leaves both tables as they were, so
    the next call asks again. *)
Theorem getStubTarget_caches_resolved
        (doGetStubTarget doGetStubTarget'
           : N -> Executable.StubTargetQueryResult * string * string)
        (st st' : Executable.Stubs) (address : N)
        (r : option Executable.StubInfo) :
  Executable.getStubTarget doGetStubTarget st address = Ok (r, st') ->
  (forall stub, r = Some stub ->
                Executable.getStubTarget doGetStubTarget' st' address
                = Ok (Some stub, st'))
  /\ (r = None ->
      st' = st
      /\ Executable.getStubTarget doGetStubTarget' st' address
         = Executable.getStubTarget doGetStubTarget' st address
      /\ Executable.lookup address (Executable.stubTargets st) = None).
Proof.
  unfold Executable.getStubTarget. intros H.
  destruct (Executable.lookup address (Executable.stubTargets st))
    as [known |] eqn:Hknown.
  - injection H as <- <-. split; [| discriminate].
    intros stub Hs. injection Hs as <-. now rewrite Hknown.
  - destruct (doGetStubTarget address) as [[resolution libraryName] targetName].
    destruct resolution; try discriminate H; injection H as <- <-.
    + split; [discriminate |]. intros _. now rewrite Hknown.
    + split; [| discriminate]. intros stub Hs. injection Hs as <-.
      cbn [Executable.stubTargets]. now rewrite lookup_assign_same.
    + split; [| discriminate]. intros stub Hs. injection Hs as <-.
      cbn [Executable.stubTargets]. now rewrite lookup_assign_same.
Qed.

Lemma getStubTarget_caches_resolved_witness :
  Executable.getStubTarget sampleStubTarget (Executable.mkStubs [] []) 16
  = Ok (Some (Executable.mkStubInfo (Some "libc") "puts")%string,
        Executable.mkStubs
          [(16%N, Executable.mkStubInfo (Some "libc") "puts")%string]
          ["libc"%string])
  /\ Executable.getStubTarget
       (fun _ => (Executable.Unresolved, EmptyString, EmptyString))
       (Executable.mkStubs
          [(16%N, Executable.mkStubInfo (Some "libc") "puts")%string]
          ["libc"%string]) 16
     = Ok (Some (Executable.mkStubInfo (Some "libc") "puts")%string,
           Executable.mkStubs
             [(16%N, Executable.mkStubInfo (Some "libc") "puts")%string]
             ["libc"%string]).
Proof.
  split; [reflexivity |].
  exact (proj1 (getStubTarget_caches_resolved sampleStubTarget
                  (fun _ => (Executable.Unresolved, EmptyString, EmptyString))
                  (Executable.mkStubs [] []) _ 16 _ eq_refl)
               _ eq_refl).
Defined.

Lemma setInsert_In x y set :
  In y (Executable.setInsert x set) <-> y = x \/ In y set.
Proof.
  induction set as [| z rest IH]; simpl.
  - split; [intros [H | []]; now left | intros [H | []]; now left].
  - destruct (String.eqb x z) eqn:Heq; simpl.
    + apply String.eqb_eq in Heq. subst z.
      split; [intros H; now right | intros [-> | H]; [now left | exact H]].
    + rewrite IH. split.
      * intros [H | [H | H]]; [right; now left | now left | right; now right].
      * intros [H | [H | H]]; [right; now left | now left | right; now right].
Qed.

(** X23: the shared-object pointers of the stub cache stay valid: if every
    cached stub that names a library names a member of [libraries], the same
    holds after a call; the stub the call returns names a member too;
    [libraries] never loses a member; and a stub resolved in the flat
    namespace names no library. *)
Theorem getStubTarget_keeps_libraries
        (doGetStubTarget
           : N -> Executable.StubTargetQueryResult * string * string)
        (st st' : Executable.Stubs) (address : N)
        (r : option Executable.StubInfo) :
  stubsWellFormed st ->
  Executable.getStubTarget doGetStubTarget st address = Ok (r, st') ->
  stubsWellFormed st'
  /\ (forall stub library,
         r = Some stub -> Executable.sharedObject stub = Some library ->
         In library (Executable.libraries st'))
  /\ (forall library, In library (Executable.libraries st) ->
                      In library (Executable.libraries st'))
  /\ (Executable.lookup address (Executable.stubTargets st) = None ->
      fst (fst (doGetStubTarget address)) = Executable.ResolvedInFlatNamespace ->
      exists stub, r = Some stub /\ Executable.sharedObject stub = None
                   /\ Executable.libraries st' = Executable.libraries st).
Proof.
  unfold Executable.getStubTarget. intros Hwf H.
  destruct (Executable.lookup address (Executable.stubTargets st))
    as [known |] eqn:Hknown.
  - injection H as <- <-. repeat split; try assumption.
    + intros stub library Hs Hl. injection Hs as <-.
      exact (Hwf address known library Hknown Hl).
    + auto.
    + discriminate.
  - destruct (doGetStubTarget address) as [[resolution libraryName] targetName].
    assert (Hframe : forall stub libs,
               (forall library, In library (Executable.libraries st) ->
                                In library libs) ->
               (forall library, Executable.sharedObject stub = Some library ->
                                In library libs) ->
               stubsWellFormed
                 (Executable.mkStubs
                    (Executable.assign address stub (Executable.stubTargets st))
                    libs)).
    { intros stub libs Hincl Hstub a s library Ha Hs.
      cbn [Executable.stubTargets Executable.libraries] in *.
      destruct (N.eq_dec a address) as [-> | Hne].
      - rewrite lookup_assign_same in Ha. injection Ha as <-. now apply Hstub.
      - rewrite (lookup_assign_other _ _ _ _ Hne) in Ha.
        apply Hincl. exact (Hwf a s library Ha Hs). }
    destruct resolution; try discriminate H; injection H as <- <-.
    + repeat split; try assumption; try discriminate. auto.
    + repeat split.
      * apply Hframe; [auto | discriminate].
      * intros stub library Hs Hl. injection Hs as <-. discriminate Hl.
      * auto.
      * intros _ _. eexists. repeat split.
    + repeat split.
      * apply Hframe.
        -- intros library Hin. cbn. apply setInsert_In. now right.
        -- intros library Hl. injection Hl as <-. apply setInsert_In. now left.
      * intros stub library Hs Hl. injection Hs as <-. injection Hl as <-.
        cbn. apply setInsert_In. now left.
      * intros library Hin. cbn. apply setInsert_In. now right.
      * intros _ Hflat. discriminate Hflat.
Qed.

Lemma getStubTarget_keeps_libraries_witness :
  stubsWellFormed (Executable.mkStubs [] ["libm"%string])
  /\ Executable.getStubTarget sampleStubTarget
       (Executable.mkStubs [] ["libm"%string]) 16
     = Ok (Some (Executable.mkStubInfo (Some "libc") "puts")%string,
           Executable.mkStubs
             [(16%N, Executable.mkStubInfo (Some "libc") "puts")%string]
             ["libm"; "libc"]%string)
  /\ stubsWellFormed
       (Executable.mkStubs
          [(16%N, Executable.mkStubInfo (Some "libc") "puts")%string]
          ["libm"; "libc"]%string).
Proof.
  assert (Hwf : stubsWellFormed (Executable.mkStubs [] ["libm"%string])).
  { intros a s l Ha. discriminate Ha. }
  split; [exact Hwf |]. split; [reflexivity |].
  exact (proj1 (getStubTarget_keeps_libraries sampleStubTarget
                  (Executable.mkStubs [] ["libm"%string]) _ 16 _ Hwf eq_refl)).
Defined.
